(** * ffapipe: the checkpointed work-partitioning engine of [wkr_manager.py]

    A shallow embedding of [PipelineWorker] (src/src_scripts/wkr_manager.py):
    source detection ([raw_or_fil]), checkpoint reconciliation, the
    per-rank slicing of the remaining files and the sequential processing
    loop of [__call__], followed by the properties of the engine.

    Conventions of the model.
    - The file system is a pair of finite maps keyed by path: binary files
      that hold a sequence of pickled objects, and text files held as
      lines.  A file is a sequence of whole records: torn writes are below
      this level.
    - Effects are threaded through a state-and-exception monad; the state
      reached when an exception is raised is kept, since what is on disk
      at that moment is what a later run finds.
    - [len(FILES) / NRANKS] is a float in the source; it is modelled by
      exact division, which it agrees with for every list that fits in
      memory.
    - The helpers of [utilities.py] and the [Filterbank] class are not
      part of the sources at hand; what is assumed of them is stated where
      they are introduced. *)

From Stdlib Require Import String Ascii ZArith Lia DecimalString DecimalNat.
From Stdlib Require Import ArithRing Permutation.
From stdpp Require Import gmap strings list.

Local Open Scope string_scope.
Local Open Scope list_scope.

(* ------------------------------------------------------------------ *)
(** ** Strings *)

(** [str.endswith]: [suf] is one of the tails of [s]. *)
Fixpoint endswith (s suf : string) : bool :=
  String.eqb s suf ||
  match s with
  | EmptyString => false
  | String _ s' => endswith s' suf
  end.

(** Removes a literal prefix, if it is there. *)
Fixpoint strip_prefix (pre s : string) : option string :=
  match pre, s with
  | EmptyString, _ => Some s
  | String a pre', String b s' =>
      if Ascii.eqb a b then strip_prefix pre' s' else None
  | String _ _, EmptyString => None
  end.

Definition is_sep (c : ascii) : bool := Ascii.eqb c "/".

(** [s] matches the pattern [*suf]: a run of characters other than the
    path separator, then [suf] up to the end. *)
Fixpoint star_then (suf s : string) : bool :=
  String.eqb s suf ||
  match s with
  | EmptyString => false
  | String c s' => negb (is_sep c) && star_then suf s'
  end.

(** A path matches the glob pattern [pre*suf], where [pre] and [suf] hold
    no wildcard of their own. *)
Definition glob_match (pre suf p : string) : bool :=
  match strip_prefix pre p with
  | Some rest => star_then suf rest
  | None => false
  end.

(** No character of [s] is the path separator. *)
Fixpoint no_sep (s : string) : bool :=
  match s with
  | EmptyString => true
  | String c s' => negb (is_sep c) && no_sep s'
  end.

(** [str(n)] for a non-negative integer. *)
Definition str_of_nat (n : nat) : string :=
  NilEmpty.string_of_uint (Nat.to_uint n).

(** [os.path.join] of a directory and a relative component. *)
Definition os_path_join (a b : string) : string := a +:+ "/" +:+ b.

(* ------------------------------------------------------------------ *)
(** ** Data *)

(** An [os.DirEntry], of which the worker reads [.name] and [.path]. *)
Record DirEntry := mkEntry { name : string; path : string }.

(** Modelled from the spec: the configuration object ([cfg_manager.py] is
    not among the sources), as the record of the fields that the worker
    reads from [self.config]. *)
Record CfgManager := mkCfg {
  store_path : string;
  rfi_path : string;
  state_path : string;
  logs_path : string;
  RANK : nat;
  NRANKS : nat
}.

(** Modelled from the spec: [filterbank.metadata], the object returned by
    the per-file step (the [Filterbank] class is not among the sources).
    It carries the name of the file under ["fname"]; the rest of it is
    not looked at by the engine. *)
Record Meta := mkMeta { fname : string; details : string }.

(** What [pickle.dump] puts into a history log. *)
Inductive Pickled :=
| PConfig (c : CfgManager)
| PMeta (m : Meta).

Inductive exn :=
| UnboundLocalError (var : string)
| ZeroDivisionError
| TypeError
| ExternalError (msg : string).

Inductive result (A : Type) :=
| Ok (a : A)
| Raise (e : exn).
Arguments Ok {A} a.
Arguments Raise {A} e.

(** What the worker does to the outside, in the order it does it. *)
Inductive Event :=
| EvMakeDirs (dirs : list string)
| EvLogStart (date : string)
| EvProcess (FIL_NAME FIL_PATH : string)
| EvDump (file : string) (obj : Pickled)
| EvWrite (file : string) (line : string)
| EvLogCount (line_count : nat)
| EvLogDone (date : string)
| EvLogTotal (total : Z).

Record World := mkWorld {
  pickles : gmap string (list Pickled);
  texts : gmap string (list string);
  timer_reads : nat;
  walltime : option Z;
  trace : list Event
}.

Global Instance CfgManager_eq_dec : EqDecision CfgManager.
Proof. solve_decision. Defined.
Global Instance Meta_eq_dec : EqDecision Meta.
Proof. solve_decision. Defined.
Global Instance Pickled_eq_dec : EqDecision Pickled.
Proof. solve_decision. Defined.

(* ------------------------------------------------------------------ *)
(** ** The monad of the worker *)

Definition M (A : Type) : Type := World -> World * result A.

Definition ret {A} (a : A) : M A := fun w => (w, Ok a).

Definition raise {A} (e : exn) : M A := fun w => (w, Raise e).

Definition bind {A B} (m : M A) (k : A -> M B) : M B :=
  fun w =>
    match m w with
    | (w', Ok a) => k a w'
    | (w', Raise e) => (w', Raise e)
    end.

Definition lift {A} (r : result A) : M A := fun w => (w, r).

Declare Scope worker_scope.
Delimit Scope worker_scope with worker.
Notation "x <- m ;; k" := (bind m (fun x => k))
  (at level 100, m at next level, right associativity) : worker_scope.
Notation "m ;;; k" := (bind m (fun _ => k))
  (at level 100, right associativity) : worker_scope.
Local Open Scope worker_scope.

Definition emit (e : Event) : M unit :=
  fun w => (mkWorld (pickles w) (texts w) (timer_reads w) (walltime w)
                    (trace w ++ [e]), Ok tt).

Definition set_pickles (f : gmap string (list Pickled) -> gmap string (list Pickled))
  : M unit :=
  fun w => (mkWorld (f (pickles w)) (texts w) (timer_reads w) (walltime w)
                    (trace w), Ok tt).

Definition set_texts (f : gmap string (list string) -> gmap string (list string))
  : M unit :=
  fun w => (mkWorld (pickles w) (f (texts w)) (timer_reads w) (walltime w)
                    (trace w), Ok tt).

(** A file opened for reading, or the content an absent file would have
    once created. *)
Definition content {A} (fs : gmap string (list A)) (file : string) : list A :=
  default [] (fs !! file).

(** [open(file, "wb+")]: the file is created, or cut down to nothing. *)
Definition open_wb_plus (file : string) : M unit :=
  set_pickles (fun fs => <[file := []]> fs).

(** [open(file, "ab")]: the file is created if absent, else left as it is. *)
Definition open_ab (file : string) : M unit :=
  set_pickles (fun fs => <[file := content fs file]> fs).

(** [pickle.dump(obj, handle)] on a handle positioned at the end. *)
Definition pickle_dump (file : string) (obj : Pickled) : M unit :=
  set_pickles (fun fs => <[file := content fs file ++ [obj]]> fs) ;;;
  emit (EvDump file obj).

(** [open(file, "a")] and [handle.write(line + "\n")]. *)
Definition open_a (file : string) : M unit :=
  set_texts (fun fs => <[file := content fs file]> fs).

Definition write_line (file line : string) : M unit :=
  set_texts (fun fs => <[file := content fs file ++ [line]]> fs) ;;;
  emit (EvWrite file line).

(** [sum(1 for _ in f)] over the lines of the file. *)
Definition count_lines (file : string) : M nat :=
  fun w => (w, Ok (length (content (texts w) file))).

(** [next(it)] on a generator; [None] stands for [StopIteration]. *)
Definition next {A} (it : list A) : option (A * list A) :=
  match it with
  | [] => None
  | x :: rest => Some (x, rest)
  end.

(** Reading a local variable that may not have been assigned. *)
Definition local {A} (var : string) (v : option A) : M A :=
  match v with
  | Some a => ret a
  | None => raise (UnboundLocalError var)
  end.

(* ------------------------------------------------------------------ *)
(** ** The worker *)

(** [meta["fname"]]: the metadata of a processed file answers with the
    file's name.  The sources do not say what subscripting a configuration
    object does; it is taken to raise.  The worker itself never puts a
    configuration object anywhere but at the head of a log, which is the
    one record the loop of line 188 does not subscript. *)
Definition getitem_fname (obj : Pickled) : result string :=
  match obj with
  | PMeta m => Ok (fname m)
  | PConfig _ => Raise TypeError
  end.

(** [for meta in _metalist_: _proc_files_.append(meta["fname"])] *)
Fixpoint append_fnames (_metalist_ : list Pickled) (_proc_files_ : list string)
  : result (list string) :=
  match _metalist_ with
  | [] => Ok _proc_files_
  | meta :: rest =>
      match getitem_fname meta with
      | Ok n => append_fnames rest (_proc_files_ ++ [n])
      | Raise e => Raise e
      end
  end.

(** Modelled from the spec: [unpickler] of utilities.py, which is not
    among the sources.  It yields the records of a log one after the
    other; a log that is absent or holds no record yields nothing, which
    is what lets the first run fall through to the bootstrap branch. *)
Definition unpickler (file : string) : M (list Pickled) :=
  fun w => (w, Ok (content (pickles w) file)).

(** The name of the history log of rank [rnk]:
    [f"{logs_path}/{date}.history_{rnk}.log"]. *)
Definition history_log (cfg : CfgManager) (date : string) (rnk : nat) : string :=
  logs_path cfg +:+ "/" +:+ date +:+ ".history_" +:+ str_of_nat rnk +:+ ".log".

Definition history_prefix (cfg : CfgManager) (date : string) : string :=
  logs_path cfg +:+ "/" +:+ date +:+ ".history_".

(** [glob(f"{logs_path}/{date}.history_*.log")]: the existing files whose
    path matches; the order is that of the directory listing. *)
Definition glob_history (cfg : CfgManager) (date : string) : M (list string) :=
  fun w =>
    (w, Ok (filter (fun p => glob_match (history_prefix cfg date) ".log" p = true)
                   (map_to_list (pickles w)).*1)).

(** One round of the loop over [metas_file_list] (lines 177-194). *)
Definition restore_one (cfg : CfgManager) (metas_file : string)
    (_proc_files_ : list string) : M (list string) :=
  _metalist_ <- unpickler metas_file ;;
  match next _metalist_ with
  | Some (_, rest) => lift (append_fnames rest _proc_files_)
  | None =>
      open_wb_plus metas_file ;;;
      pickle_dump metas_file (PConfig cfg) ;;;
      ret _proc_files_
  end.

Fixpoint restore (cfg : CfgManager) (metas_file_list : list string)
    (_proc_files_ : list string) : M (list string) :=
  match metas_file_list with
  | [] => ret _proc_files_
  | metas_file :: others =>
      acc <- restore_one cfg metas_file _proc_files_ ;;
      restore cfg others acc
  end.

(** Lines 173-197 up to the filtering: the names found in the logs. *)
Definition load_completed (cfg : CfgManager) (date : string) : M (list string) :=
  found <- glob_history cfg date ;;
  let metas_file_list :=
    match found with
    | [] => history_log cfg date <$> seq 0 (NRANKS cfg)
    | _ => found
    end in
  restore cfg metas_file_list [].

(** [[FILE for FILE in FILES if FILE.name not in _proc_files_]] *)
Definition remaining (FILES : list DirEntry) (_proc_files_ : list string)
  : list DirEntry :=
  filter (fun FILE => name FILE ∉ _proc_files_) FILES.

(** Lines 200-207: the quotient rounded up. *)
Definition n_files_per_rank (len nranks : nat) : nat :=
  if (len mod nranks =? 0)%nat then len / nranks else len / nranks + 1.

(** [l[a:b]] and [l[a:]] for non-negative bounds. *)
Definition slice {A} (a b : nat) (l : list A) : list A := take (b - a) (drop a l).
Definition slice_from {A} (a : nat) (l : list A) : list A := drop a l.

(** Lines 209-212: the bounds of the slice of one rank, the open end of the
    last rank being the length of the list. *)
Definition rank_bounds (len rank nranks : nat) : nat * nat :=
  let per := n_files_per_rank len nranks in
  if (rank =? nranks - 1)%nat then (rank * per, len)
  else (rank * per, (rank + 1) * per).

(** Position [j] lies within the bounds [[start, stop)]. *)
Definition in_bounds (j : nat) (b : nat * nat) : Prop := b.1 <= j < b.2.

Definition rank_files {A} (FILES : list A) (rank nranks : nat) : list A :=
  let per := n_files_per_rank (length FILES) nranks in
  if (rank =? nranks - 1)%nat then slice_from (rank * per) FILES
  else slice (rank * per) ((rank + 1) * per) FILES.

Section Engine.

(** The listing of a directory, in the order the system gives it. *)
Variable scandir : string -> list DirEntry.

(** [Filterbank(FIL_NAME, FIL_PATH, date, beam_rfi_path, beam_state_path,
    config).process()] followed by [.metadata]: the per-file step, which
    either returns the metadata or raises. *)
Variable Filterbank_process :
  string -> string -> string -> string -> string -> CfgManager -> result Meta.

(** The successive readings of [timeit.default_timer()]. *)
Variable timer : nat -> Z.

(** Modelled from the spec: [filter_by_ext] of utilities.py, which is
    not among the sources.  It yields the entries of the directory whose
    name carries the extension. *)
Definition filter_by_ext (dir extension : string) : list DirEntry :=
  filter (fun e => endswith (name e) extension = true) (scandir dir).

(** The directory holds a file whose name carries the extension. *)
Definition has_ext (dir ext : string) : Prop :=
  exists e, e ∈ scandir dir /\ endswith (name e) ext = true.

(** Lines 55-90. *)
Definition raw_or_fil (dir : string) : option string :=
  let RAW_FILES := filter_by_ext dir ".raw" in
  match next RAW_FILES with
  | None =>
      let FIL_FILES := filter_by_ext dir ".fil" in
      match next FIL_FILES with
      | None => None
      | Some _ => Some ".fil"
      end
  | Some _ => Some ".raw"
  end.

Definition default_timer : M Z :=
  fun w => (mkWorld (pickles w) (texts w) (S (timer_reads w)) (walltime w)
                    (trace w), Ok (timer (timer_reads w))).

Definition set_walltime (t : Z) : M unit :=
  fun w => (mkWorld (pickles w) (texts w) (timer_reads w) (Some t)
                    (trace w), Ok tt).

Definition make_dirs (dirs : list string) : M unit := emit (EvMakeDirs dirs).

Definition process (cfg : CfgManager) (date beam_rfi_path beam_state_path : string)
    (FILE : DirEntry) : M Meta :=
  let FIL_NAME := name FILE in
  let FIL_PATH := path FILE in
  emit (EvProcess FIL_NAME FIL_PATH) ;;;
  lift (Filterbank_process FIL_NAME FIL_PATH date beam_rfi_path
          beam_state_path cfg).

(** Lines 224-256: the loop over the files of this rank. *)
Fixpoint process_files (cfg : CfgManager)
    (date beam_rfi_path beam_state_path metas_file filelist : string)
    (FILES : list DirEntry) : M unit :=
  match FILES with
  | [] => ret tt
  | FILE :: rest =>
      open_ab metas_file ;;;
      open_a filelist ;;;
      metadata <- process cfg date beam_rfi_path beam_state_path FILE ;;
      pickle_dump metas_file (PMeta metadata) ;;;
      write_line filelist (name FILE) ;;;
      line_count <- count_lines filelist ;;
      emit (EvLogCount line_count) ;;;
      process_files cfg date beam_rfi_path beam_state_path metas_file
        filelist rest
  end.

(** Lines 157-256: the branch taken when there is data. *)
Definition process_date (cfg : CfgManager) (date EXT : string) : M Z :=
  let date_path := os_path_join (store_path cfg) date in
  let beam_rfi_path := os_path_join (rfi_path cfg) date in
  let beam_state_path := os_path_join (state_path cfg) date in
  emit (EvLogStart date) ;;;
  start_time <- default_timer ;;
  let FILES := filter_by_ext date_path EXT in
  _proc_files_ <- load_completed cfg date ;;
  let FILES := remaining FILES _proc_files_ in
  (if (NRANKS cfg =? 0)%nat then raise ZeroDivisionError else ret tt) ;;;
  let FILES := rank_files FILES (RANK cfg) (NRANKS cfg) in
  let metas_file := history_log cfg date (RANK cfg) in
  let filelist := os_path_join beam_state_path "filelist" in
  process_files cfg date beam_rfi_path beam_state_path metas_file filelist
    FILES ;;;
  ret start_time.

(** [PipelineWorker.__call__] (lines 120-263).  The lines handed to the
    logger are kept in the trace; the handlers set up by
    [configure_logger] are not modelled. *)
Definition call (cfg : CfgManager) (date : string) : M unit :=
  let date_path := os_path_join (store_path cfg) date in
  let beam_rfi_path := os_path_join (rfi_path cfg) date in
  let beam_state_path := os_path_join (state_path cfg) date in
  make_dirs [beam_rfi_path; beam_state_path] ;;;
  let EXT := raw_or_fil date_path in
  start_time <-
    match EXT with
    | Some ext => t <- process_date cfg date ext ;; ret (Some t)
    | None => ret None
    end ;;
  end_time <- default_timer ;;
  start_time <- local "start_time" start_time ;;
  set_walltime (end_time - start_time) ;;;
  emit (EvLogDone date) ;;;
  emit (EvLogTotal (end_time - start_time)).

End Engine.

(* ------------------------------------------------------------------ *)
(** ** Vocabulary of the statements *)

(** The file names carried by the completion records of a sequence. *)
Definition fnames (recs : list Pickled) : list string :=
  recs ≫= (fun r => match r with PMeta m => [fname m] | PConfig _ => [] end).

(** Every log of [fs] is still there in [fs'], with what it held as a
    prefix of what it holds. *)
Definition extends (fs fs' : gmap string (list Pickled)) : Prop :=
  forall p c, fs !! p = Some c -> exists more, fs' !! p = Some (c ++ more).

(** The log at [p] is as it was, or it held no record and now holds the
    configuration header and nothing else. *)
Definition same_or_header (cfg : CfgManager) (p : string)
    (fs fs' : gmap string (list Pickled)) : Prop :=
  fs' !! p = fs !! p
  \/ (content fs p = [] /\ fs' !! p = Some [PConfig cfg]).

(** Every step of [m] moves the logs along [R]. *)
Definition evolves {A} (R : relation (gmap string (list Pickled))) (m : M A)
  : Prop :=
  forall w, R (pickles w) (pickles (m w).1).

(** What the loop emits for one file, and for a list of files starting
    from a ledger of [lines] lines. *)
Definition item_events (metas_file filelist : string) (FILE : DirEntry)
    (metadata : Meta) (line_count : nat) : list Event :=
  [EvProcess (name FILE) (path FILE);
   EvDump metas_file (PMeta metadata);
   EvWrite filelist (name FILE);
   EvLogCount line_count].

Fixpoint loop_events (metas_file filelist : string) (meta_of : DirEntry -> Meta)
    (FILES : list DirEntry) (lines : nat) : list Event :=
  match FILES with
  | [] => []
  | FILE :: rest =>
      item_events metas_file filelist FILE (meta_of FILE) (S lines)
      ++ loop_events metas_file filelist meta_of rest (S lines)
  end.

(** The world as [__call__] has it when it reaches line 162: directories
    made, start logged, timer read once. *)
Definition started (cfg : CfgManager) (date : string) (w : World) : World :=
  mkWorld (pickles w) (texts w) (S (timer_reads w)) (walltime w)
    ((trace w
      ++ [EvMakeDirs [os_path_join (rfi_path cfg) date;
                      os_path_join (state_path cfg) date]])
     ++ [EvLogStart date]).

(** The world after the loop has dealt with one file whose processing
    returned [metadata], and after it has dealt with a list of such files. *)
Definition after_item (metas_file filelist : string) (FILE : DirEntry)
    (metadata : Meta) (w : World) : World :=
  mkWorld
    (<[metas_file := content (pickles w) metas_file ++ [PMeta metadata]]> (pickles w))
    (<[filelist := content (texts w) filelist ++ [name FILE]]> (texts w))
    (timer_reads w) (walltime w)
    (trace w ++ item_events metas_file filelist FILE metadata
                  (S (length (content (texts w) filelist)))).

Fixpoint after_items (metas_file filelist : string) (meta_of : DirEntry -> Meta)
    (FILES : list DirEntry) (w : World) : World :=
  match FILES with
  | [] => w
  | FILE :: rest =>
      after_items metas_file filelist meta_of rest
        (after_item metas_file filelist FILE (meta_of FILE) w)
  end.

(** The world in which the loop is left when the processing of [FILE]
    raises: both files have been opened, nothing has been written. *)
Definition after_failure (metas_file filelist : string) (FILE : DirEntry)
    (w : World) : World :=
  mkWorld
    (<[metas_file := content (pickles w) metas_file]> (pickles w))
    (<[filelist := content (texts w) filelist]> (texts w))
    (timer_reads w) (walltime w)
    (trace w ++ [EvProcess (name FILE) (path FILE)]).

(** The world after lines 260-263, given the start time. *)
Definition finished (timer : nat -> Z) (date : string) (start_time : Z)
    (w : World) : World :=
  mkWorld (pickles w) (texts w) (S (timer_reads w))
    (Some (timer (timer_reads w) - start_time)%Z)
    ((trace w ++ [EvLogDone date])
     ++ [EvLogTotal (timer (timer_reads w) - start_time)%Z]).

(** A small installation used to run the worker on concrete inputs. *)
Module Example.

Definition cfg (rank nranks : nat) : CfgManager :=
  mkCfg "store" "rfi" "state" "logs" rank nranks.

Definition entry (n : string) : DirEntry := mkEntry n ("store/D/" +:+ n).

Definition listing (names : list string) : string -> list DirEntry :=
  fun dir => if String.eqb dir "store/D" then entry <$> names else [].

Definition meta (n : string) : Meta := mkMeta n "done".

(** A per-file step that always succeeds. *)
Definition steady
  : string -> string -> string -> string -> string -> CfgManager -> result Meta :=
  fun n _ _ _ _ _ => Ok (meta n).

(** A per-file step that fails on the file called [bad]. *)
Definition failing_on (bad : string)
  : string -> string -> string -> string -> string -> CfgManager -> result Meta :=
  fun n _ _ _ _ _ =>
    if String.eqb n bad then Raise (ExternalError n) else Ok (meta n).

Definition clock (k : nat) : Z := Z.of_nat k.

Definition fresh : World := mkWorld ∅ ∅ 0 None [].

Definition h0 : string := "logs/D.history_0.log".
Definition h1 : string := "logs/D.history_1.log".

(** The date directory of the runs below. *)
Definition dir : string -> list DirEntry :=
  listing ["a.fil"; "b.fil"; "c.fil"; "d.fil"; "e.fil"].

(** The state left by a run with a single rank that completed [a.fil]
    and then failed on [b.fil]. *)
Definition after_one_rank : World :=
  (call dir (failing_on "b.fil") clock (cfg 0 1) "D" fresh).1.

(** The state left when the date is then taken up by two ranks: rank 1
    completes its slice, rank 0 completes [b.fil] and fails on [c.fil]. *)
Definition after_two_ranks : World :=
  (call dir (failing_on "c.fil") clock (cfg 0 2) "D"
     (call dir steady clock (cfg 1 2) "D" after_one_rank).1).1.

End Example.

(* ------------------------------------------------------------------ *)
(** ** What a loop has dealt with *)

(** The files of a list that the loop of lines 224-256 deals with before
    the per-file step first raises, each with the metadata it returned. *)
Fixpoint processed_prefix (step : DirEntry -> result Meta) (FILES : list DirEntry)
  : list (DirEntry * Meta) :=
  match FILES with
  | [] => []
  | FILE :: rest =>
      match step FILE with
      | Ok m => (FILE, m) :: processed_prefix step rest
      | Raise _ => []
      end
  end.

(** A record that the loop of line 188 can subscript. *)
Definition is_meta (r : Pickled) : Prop := exists m, r = PMeta m.

(* ------------------------------------------------------------------ *)
(** ** rfi_filter_filtool.py: the plan of [main] *)

Module RfiFilter.

Inductive error :=
| ZeroDivision   (* ZeroDivisionError *)
| NoneOperand    (* TypeError: [None // int] *)
| PoolSize.      (* ValueError: Number of processes must be at least 1 *)

Inductive outcome (A : Type) :=
| Done (a : A)
| Fails (e : error).
Arguments Done {A} a.
Arguments Fails {A} e.

(** The truth value of an optional integer option of the command line:
    absent ([None]) and zero are both false. *)
Definition given (x : option Z) : option Z :=
  match x with
  | Some v => if (v =? 0)%Z then None else Some v
  | None => None
  end.

(** Lines 111-115: the number of processes and of threads per process,
    then [Pool(processes=nprocess)], which refuses a size below one.
    [cpu_count] is the answer of [os.cpu_count()], [n_files] the length of
    [fil_files]. *)
Definition plan_pool (workers threads cpu_count : option Z) (n_files : nat)
  : outcome (Z * Z) :=
  let nprocess :=
    match given workers with
    | Some w => w
    | None => Z.of_nat n_files
    end in
  let nthreads :=
    match given threads with
    | Some t => Done t
    | None =>
        match cpu_count with
        | None => Fails NoneOperand
        | Some c =>
            if (nprocess =? 0)%Z then Fails ZeroDivision
            else Done (c / nprocess)%Z
        end
    end in
  match nthreads with
  | Fails e => Fails e
  | Done nthreads =>
      if (nprocess <? 1)%Z then Fails PoolSize else Done (nprocess, nthreads)
  end.

(** Lines 95-115 of [main]: the files of this rank, cut out of the listing
    exactly as in [wkr_manager.py], and the pool made for them.  What the
    lines hand to the logger is left out. *)
Definition main_plan {A} (all_fil_files : list A) (rank nranks : nat)
    (workers threads cpu_count : option Z) : outcome (list A * Z * Z) :=
  if (nranks =? 0)%nat then Fails ZeroDivision
  else
    let fil_files := rank_files all_fil_files rank nranks in
    match plan_pool workers threads cpu_count (length fil_files) with
    | Fails e => Fails e
    | Done (nprocess, nthreads) => Done (fil_files, nprocess, nthreads)
    end.

End RfiFilter.

(* ------------------------------------------------------------------ *)
(** ** cand_filter.py *)

Module CandFilter.

(** [\d] on the characters of a file name.  File names are taken to be
    ASCII, where the digits are ['0'] to ['9']. *)
Definition is_digit (c : ascii) : bool :=
  (48 <=? nat_of_ascii c)%nat && (nat_of_ascii c <=? 57)%nat.

Definition is_zero (c : ascii) : bool := Ascii.eqb c "0".

Fixpoint take_while {A} (f : A -> bool) (l : list A) : list A :=
  match l with
  | [] => []
  | x :: l' => if f x then x :: take_while f l' else []
  end.

Fixpoint drop_while {A} (f : A -> bool) (l : list A) : list A :=
  match l with
  | [] => []
  | x :: l' => if f x then drop_while f l' else l
  end.

(** What follows the characters of [pre] at the head of [l], if they are
    there. *)
Fixpoint strip_head (pre l : list ascii) : option (list ascii) :=
  match pre, l with
  | [], _ => Some l
  | a :: pre', b :: l' => if Ascii.eqb a b then strip_head pre' l' else None
  | _ :: _, [] => None
  end.

(** [s.lstrip('0') or '0'] on the characters of [s]. *)
Definition lstrip_zeros_or_zero (s : list ascii) : list ascii :=
  match drop_while is_zero s with
  | [] => ["0"%char]
  | s' => s'
  end.

(** [int(s)] for a string of decimal digits. *)
Definition int_of_digits (s : list ascii) : nat :=
  fold_left (fun acc c => 10 * acc + (nat_of_ascii c - 48)) s 0.

(** The characters, last one first, that come before a final [.h5]: the
    [$] of the pattern stands at the end of the name or before a newline
    that ends it. *)
Definition before_h5 (reversed : list ascii) : option (list ascii) :=
  match strip_head ["010"%char; "5"%char; "h"%char; "."%char] reversed with
  | Some rest => Some rest
  | None => strip_head ["5"%char; "h"%char; "."%char] reversed
  end.

(** Lines 37-40.  [re.search(r'(\d+)(?=\.h5$)', fname)]: the leftmost match
    starts at the first digit of the run of digits that ends where the
    final [.h5] begins, and takes all of that run, since inside the run a
    digit and not a dot follows.  No such digit, or no final [.h5]: no
    match, and the answer is [None]. *)
Definition extract_cand_number (fname : string) : option nat :=
  match before_h5 (rev (list_ascii_of_string fname)) with
  | None => None
  | Some rest =>
      match rev (take_while is_digit rest) with
      | [] => None
      | digits => Some (int_of_digits (lstrip_zeros_or_zero digits))
      end
  end.

Section Harmonic.

Context {Row : Type}.

(** [abs(dms[i] - dms[j]) > dm_tol] for two rows (line 72). *)
Variable dm_far : Row -> Row -> bool.

(** [abs(p2 - p1 / n) <= period_tol] for the periods [p1], [p2] of two
    rows (line 79). *)
Variable is_harmonic : Row -> Row -> nat -> bool.

(** The [snr] of the first row is below that of the second. *)
Variable snr_lt : Row -> Row -> bool.

Variable harmonic_max : nat.

Variable df : list Row.

(** Lines 71-82 for the rows at positions [i] and [j]: the dispersion
    measures are close and the second period is the first divided by some
    [n] in [range(2, harmonic_max + 1)]. *)
Definition linked (i j : nat) : bool :=
  match df !! i, df !! j with
  | Some r1, Some r2 =>
      negb (dm_far r1 r2)
      && existsb (is_harmonic r1 r2) (seq 2 (harmonic_max - 1))
  | _, _ => false
  end.

(** [used[j]] for a position within the array. *)
Definition flag (used : list bool) (j : nat) : bool := default false (used !! j).

(** Lines 67-82: the loop over [j], with the [used] flags and the group
    being built. *)
Fixpoint absorb (i : nat) (js : list nat) (used : list bool)
    (group_indices : list nat) : list bool * list nat :=
  match js with
  | [] => (used, group_indices)
  | j :: js' =>
      if flag used j then absorb i js' used group_indices
      else if linked i j
           then absorb i js' (<[j := true]> used) (group_indices ++ [j])
           else absorb i js' used group_indices
  end.

(** Lines 60-84: the loop over [i]. *)
Fixpoint group_from (n : nat) (indices : list nat) (used : list bool)
    (groups : list (list nat)) : list (list nat) :=
  match indices with
  | [] => groups
  | i :: indices' =>
      if flag used i then group_from n indices' used groups
      else
        let '(used', group_indices) :=
          absorb i (seq (S i) (n - S i)) (<[i := true]> used) [i] in
        group_from n indices' used' (groups ++ [group_indices])
  end.

Definition harmonic_groups : list (list nat) :=
  group_from (length df) (seq 0 (length df)) (replicate (length df) false) [].

Definition snr_lt_at (i j : nat) : bool :=
  match df !! i, df !! j with
  | Some r1, Some r2 => snr_lt r1 r2
  | _, _ => false
  end.

(** [idxmax] over the rows of a group: the first position that holds the
    largest [snr]; there is none in an empty group. *)
Fixpoint argmax_from (best : nat) (others : list nat) : nat :=
  match others with
  | [] => best
  | j :: others' =>
      if snr_lt_at best j then argmax_from j others'
      else argmax_from best others'
  end.

Definition idxmax (group : list nat) : option nat :=
  match group with
  | [] => None
  | i :: others => Some (argmax_from i others)
  end.

(** Lines 87-90. *)
Definition kept_rows : option (list nat) := mapM idxmax harmonic_groups.

(** Lines 47-95; [None] stands for an exception ([idxmax] of nothing, a
    label that [df.loc] does not find).  The rows are addressed by
    position, as they are in a frame whose index has been reset, and the
    [snr] values are numbers, rows without one having been dropped at
    line 121.  The line handed to the logger is left out. *)
Definition harmonic_filter : option (list Row) :=
  match df with
  | [] | [_] => Some df
  | _ => kept ← kept_rows; mapM (fun i => df !! i) kept
  end.

End Harmonic.

End CandFilter.

(** A small frame of candidates used to run the harmonic filter: rows of
    period (in hundredths of a second), dispersion measure and snr, all
    whole numbers. *)
Module CandExample.

Record Row := mkRow { period : nat; dm : nat; snr : nat }.

Definition dist (a b : nat) : nat := (a - b) + (b - a).

Definition dm_far (r1 r2 : Row) : bool := (5 <? dist (dm r1) (dm r2))%nat.

Definition is_harmonic (r1 r2 : Row) (n : nat) : bool :=
  (dist (period r2) (period r1 / n) <=? 1)%nat.

Definition snr_lt (r1 r2 : Row) : bool := (snr r1 <? snr r2)%nat.

Definition df : list Row :=
  [mkRow 600 10 9; mkRow 300 10 12; mkRow 200 50 8; mkRow 150 11 7;
   mkRow 100 10 20].

End CandExample.

(* ================================================================== *)
(** * Properties *)

(* ------------------------------------------------------------------ *)
(** ** Strings and log names *)

Lemma strip_prefix_app (pre s : string) : strip_prefix pre (pre +:+ s) = Some s.
Proof.
  induction pre as [|a pre IH]; simpl; [reflexivity|].
  now rewrite Ascii.eqb_refl.
Qed.

Lemma strip_prefix_common (a b c : string) :
  strip_prefix (a +:+ b) (a +:+ c) = strip_prefix b c.
Proof.
  induction a as [|x a IH]; simpl; [reflexivity|].
  now rewrite Ascii.eqb_refl.
Qed.

Lemma star_then_app (tag suf : string) :
  no_sep tag = true -> star_then suf (tag +:+ suf) = true.
Proof.
  induction tag as [|c tag IH]; simpl; intros H.
  - destruct suf; simpl; [reflexivity|].
    rewrite Ascii.eqb_refl, String.eqb_refl. reflexivity.
  - apply andb_prop in H as [Hc Ht].
    rewrite Hc, (IH Ht). simpl. apply orb_true_r.
Qed.

Lemma no_sep_digits (d : Decimal.uint) :
  no_sep (NilEmpty.string_of_uint d) = true.
Proof. induction d; simpl; auto. Qed.

Lemma no_sep_str_of_nat (n : nat) : no_sep (str_of_nat n) = true.
Proof. apply no_sep_digits. Qed.

Lemma str_of_nat_inj (n n' : nat) : str_of_nat n = str_of_nat n' -> n = n'.
Proof.
  unfold str_of_nat. intros H.
  apply DecimalNat.Unsigned.to_uint_inj.
  assert (Some (Nat.to_uint n) = Some (Nat.to_uint n')) as [= E]; [|exact E].
  rewrite <- !NilEmpty.usu. now rewrite H.
Qed.

Lemma string_app_length (s t : string) :
  String.length (s +:+ t) = String.length s + String.length t.
Proof. induction s; simpl; auto. Qed.

Lemma string_app_inv_tail (s1 s2 t : string) : s1 +:+ t = s2 +:+ t -> s1 = s2.
Proof.
  revert s2. induction s1 as [|a s1 IH]; intros [|b s2] H; simpl in H.
  - reflexivity.
  - apply (f_equal String.length) in H.
    rewrite !string_app_length in H. simpl in H. lia.
  - apply (f_equal String.length) in H.
    rewrite !string_app_length in H. simpl in H. lia.
  - injection H as -> H. f_equal. now apply IH.
Qed.

(** The log of every rank index, whatever the number of ranks of the run
    that wrote it, is matched by the pattern of line 173. *)
Lemma history_log_matches (cfg : CfgManager) (date : string) (rnk : nat) :
  glob_match (history_prefix cfg date) ".log" (history_log cfg date rnk) = true.
Proof.
  unfold glob_match, history_prefix, history_log.
  rewrite !strip_prefix_common.
  exact (star_then_app (str_of_nat rnk) ".log" (no_sep_str_of_nat rnk)).
Qed.

(** Distinct rank indices name distinct logs. *)
Lemma history_log_inj (cfg : CfgManager) (date : string) (r r' : nat) :
  history_log cfg date r = history_log cfg date r' -> r = r'.
Proof.
  unfold history_log. intros H.
  do 4 apply String.app_inj in H.
  apply string_app_inv_tail in H. now apply str_of_nat_inj.
Qed.

(* ------------------------------------------------------------------ *)
(** ** Detection *)

Section Detection.

Variable scandir : string -> list DirEntry.

Lemma next_filter_by_ext_None (dir ext : string) :
  next (filter_by_ext scandir dir ext) = None -> ~ has_ext scandir dir ext.
Proof.
  unfold has_ext, filter_by_ext, next.
  destruct (filter _ _) as [|x l] eqn:E; [|discriminate].
  intros _ (e & He & Hx).
  assert (e ∈ filter (fun e => endswith (name e) ext = true) (scandir dir))
    as Hin by (apply list_elem_of_filter; auto).
  rewrite E in Hin. inversion Hin.
Qed.

Lemma next_filter_by_ext_Some (dir ext : string) (x : DirEntry * list DirEntry) :
  next (filter_by_ext scandir dir ext) = Some x -> has_ext scandir dir ext.
Proof.
  unfold has_ext, filter_by_ext, next.
  destruct (filter _ _) as [|y l] eqn:E; [discriminate|]. intros _.
  exists y.
  assert (y ∈ filter (fun e => endswith (name e) ext = true) (scandir dir))
    as Hin by (rewrite E; left).
  apply list_elem_of_filter in Hin as [? ?]. auto.
Qed.

(** C9.  Detection answers [".raw"] exactly when the directory holds a
    file with that extension, whether or not filterbank files are there
    too; it answers [".fil"] exactly when there is no raw file but there
    is a filterbank file; it answers [None] exactly when there is
    neither.  Raw data is looked for first and wins over filterbank
    data. *)
Theorem detection_precedence (dir : string) :
  (raw_or_fil scandir dir = Some ".raw" <-> has_ext scandir dir ".raw")
  /\ (raw_or_fil scandir dir = Some ".fil"
      <-> ~ has_ext scandir dir ".raw" /\ has_ext scandir dir ".fil")
  /\ (raw_or_fil scandir dir = None
      <-> ~ has_ext scandir dir ".raw" /\ ~ has_ext scandir dir ".fil").
Proof.
  unfold raw_or_fil.
  destruct (next (filter_by_ext scandir dir ".raw")) as [r|] eqn:Er;
    [|destruct (next (filter_by_ext scandir dir ".fil")) as [f|] eqn:Ef].
  - apply next_filter_by_ext_Some in Er.
    repeat split; try discriminate; tauto.
  - apply next_filter_by_ext_None in Er.
    apply next_filter_by_ext_Some in Ef.
    repeat split; try discriminate; tauto.
  - apply next_filter_by_ext_None in Er.
    apply next_filter_by_ext_None in Ef.
    repeat split; try discriminate; tauto.
Qed.

End Detection.

(* ------------------------------------------------------------------ *)
(** ** Partition of the remaining files among the ranks *)

Section Partition.

Context {A : Type}.
Implicit Types (FILES : list A) (rank nranks per : nat).

Lemma slice_width FILES rank per :
  slice (rank * per) ((rank + 1) * per) FILES = take per (drop (rank * per) FILES).
Proof. unfold slice. f_equal. lia. Qed.

(** The slices of the ranks before [m], put end to end, are the first
    [m * per] files. *)
Lemma slices_before FILES per m :
  concat ((fun rank => slice (rank * per) ((rank + 1) * per) FILES) <$> seq 0 m)
  = take (m * per) FILES.
Proof.
  induction m as [|m IH]; [reflexivity|].
  rewrite seq_S, fmap_app, concat_app, IH. simpl.
  rewrite app_nil_r, slice_width, take_take_drop. f_equal. lia.
Qed.

Lemma rank_files_inner FILES rank nranks :
  rank < nranks - 1 ->
  rank_files FILES rank nranks
  = slice (rank * n_files_per_rank (length FILES) nranks)
          ((rank + 1) * n_files_per_rank (length FILES) nranks) FILES.
Proof.
  intros H. unfold rank_files.
  destruct (Nat.eqb_spec rank (nranks - 1)); [lia|reflexivity].
Qed.

Lemma rank_files_last FILES nranks :
  rank_files FILES (nranks - 1) nranks
  = drop ((nranks - 1) * n_files_per_rank (length FILES) nranks) FILES.
Proof. unfold rank_files. now rewrite Nat.eqb_refl. Qed.

Lemma rank_files_concat FILES nranks :
  1 <= nranks ->
  concat ((fun rank => rank_files FILES rank nranks) <$> seq 0 nranks) = FILES.
Proof.
  intros H. destruct nranks as [|m]; [lia|].
  pose proof (rank_files_last FILES (S m)) as Hlast.
  replace (S m - 1) with m in Hlast by lia.
  rewrite seq_S, fmap_app, concat_app. simpl.
  rewrite app_nil_r, Hlast.
  rewrite <- (take_drop (m * n_files_per_rank (length FILES) (S m)) FILES) at 3.
  f_equal. rewrite <- slices_before. f_equal.
  apply list_fmap_ext. intros i rank Hi.
  apply lookup_seq in Hi as [-> Hi]. apply rank_files_inner. lia.
Qed.

Lemma rank_files_lookup FILES rank nranks i :
  rank_files FILES rank nranks !! i
  = if decide ((rank_bounds (length FILES) rank nranks).1 + i
               < (rank_bounds (length FILES) rank nranks).2)
    then FILES !! ((rank_bounds (length FILES) rank nranks).1 + i)
    else None.
Proof.
  unfold rank_files, rank_bounds, slice, slice_from.
  destruct (Nat.eqb_spec rank (nranks - 1)); simpl.
  - rewrite lookup_drop. case_decide; [reflexivity|].
    apply lookup_ge_None. lia.
  - rewrite lookup_take, lookup_drop.
    repeat case_decide; try reflexivity; lia.
Qed.

End Partition.

Lemma rank_bounds_disjoint (len nranks rank rank' j : nat) :
  rank < nranks -> rank' < nranks ->
  in_bounds j (rank_bounds len rank nranks) ->
  in_bounds j (rank_bounds len rank' nranks) ->
  rank = rank'.
Proof.
  unfold in_bounds, rank_bounds. intros Hr Hr'.
  destruct (Nat.eqb_spec rank (nranks - 1)), (Nat.eqb_spec rank' (nranks - 1));
    simpl; intros [H1 H2] [H3 H4]; try lia; nia.
Qed.

Lemma rank_bounds_cover (len nranks j : nat) :
  1 <= nranks -> j < len ->
  exists rank, rank < nranks /\ in_bounds j (rank_bounds len rank nranks).
Proof.
  intros Hn Hj. set (per := n_files_per_rank len nranks).
  destruct (Nat.eq_dec per 0) as [E|E].
  - exists (nranks - 1). split; [lia|].
    unfold in_bounds, rank_bounds. rewrite Nat.eqb_refl. fold per. simpl. lia.
  - destruct (Nat.lt_ge_cases (j / per) (nranks - 1)) as [Hlt|Hge].
    + exists (j / per). split; [lia|].
      unfold in_bounds, rank_bounds. fold per.
      destruct (Nat.eqb_spec (j / per) (nranks - 1)); [lia|]. simpl.
      pose proof (Nat.div_mod_eq j per).
      pose proof (Nat.mod_upper_bound j per E). nia.
    + exists (nranks - 1). split; [lia|].
      unfold in_bounds, rank_bounds. rewrite Nat.eqb_refl. fold per. simpl.
      pose proof (Nat.div_mod_eq j per). nia.
Qed.

(** C1.  Whatever the number of remaining files and for any number of
    ranks of at least one: the slices of ranks [0 .. nranks-1], put end to
    end, are the list itself, so no file is dropped and none is handed out
    twice; each slice holds the files at the positions of its bounds that
    exist in the list; every position of the list lies within the bounds
    of some rank; and the bounds of two different ranks share no position.
    This covers the empty list and more ranks than files. *)
Theorem partition_coverage {A : Type} (FILES : list A) (nranks : nat) :
  1 <= nranks ->
  concat ((fun rank => rank_files FILES rank nranks) <$> seq 0 nranks) = FILES
  /\ (forall rank i,
        rank_files FILES rank nranks !! i
        = if decide ((rank_bounds (length FILES) rank nranks).1 + i
                     < (rank_bounds (length FILES) rank nranks).2)
          then FILES !! ((rank_bounds (length FILES) rank nranks).1 + i)
          else None)
  /\ (forall j, j < length FILES ->
        exists rank, rank < nranks
                     /\ in_bounds j (rank_bounds (length FILES) rank nranks))
  /\ (forall rank rank' j,
        rank < nranks -> rank' < nranks ->
        in_bounds j (rank_bounds (length FILES) rank nranks) ->
        in_bounds j (rank_bounds (length FILES) rank' nranks) ->
        rank = rank').
Proof.
  intros H. split; [now apply rank_files_concat|].
  split; [intros; apply rank_files_lookup|].
  split; [intros; now apply rank_bounds_cover|].
  intros; eapply rank_bounds_disjoint; eauto.
Qed.

(** Ten files over three ranks: ranks 0 and 1 take four files each and
    rank 2 the last two. *)
Lemma rank_files_ten_over_three :
  rank_files (seq 0 10) 0 3 = [0; 1; 2; 3]
  /\ rank_files (seq 0 10) 1 3 = [4; 5; 6; 7]
  /\ rank_files (seq 0 10) 2 3 = [8; 9].
Proof. repeat split. Qed.

(** One file over three ranks: rank 0 takes it, the slices of ranks 1 and
    2 are empty although the bounds of rank 1 are [[1, 2)]. *)
Lemma rank_files_one_over_three :
  rank_files ["x"] 0 3 = ["x"]
  /\ rank_files ["x"] 1 3 = []
  /\ rank_files ["x"] 2 3 = []
  /\ rank_bounds 1 1 3 = (1, 2)
  /\ rank_bounds 1 2 3 = (2, 1).
Proof. repeat split. Qed.

Lemma partition_coverage_witness :
  1 <= 3
  /\ concat ((fun rank => rank_files (seq 0 10) rank 3) <$> seq 0 3) = seq 0 10.
Proof.
  split; [lia|].
  apply (partition_coverage (seq 0 10) 3). lia.
Defined.

(* ------------------------------------------------------------------ *)
(** ** How a run moves the history logs *)

Create HintDb evolve.

Section Evolution.

Variable R : relation (gmap string (list Pickled)).
Context `{!PreOrder R}.

Lemma evolves_still {A} (m : M A) :
  (forall w, pickles (m w).1 = pickles w) -> evolves R m.
Proof. intros H w. rewrite H. reflexivity. Qed.

Lemma evolves_bind {A B} (m : M A) (k : A -> M B) :
  evolves R m -> (forall a, evolves R (k a)) -> evolves R (bind m k).
Proof.
  intros Hm Hk w. unfold bind. specialize (Hm w).
  destruct (m w) as [w1 [a|e]]; simpl in *; [|assumption].
  etransitivity; [exact Hm|apply Hk].
Qed.

Lemma evolves_ret {A} (a : A) : evolves R (ret a).
Proof. now apply evolves_still. Qed.

Lemma evolves_raise {A} (e : exn) : evolves R (@raise A e).
Proof. now apply evolves_still. Qed.

Lemma evolves_lift {A} (r : result A) : evolves R (lift r).
Proof. now apply evolves_still. Qed.

Lemma evolves_emit (e : Event) : evolves R (emit e).
Proof. now apply evolves_still. Qed.

Lemma evolves_set_texts f : evolves R (set_texts f).
Proof. now apply evolves_still. Qed.

Lemma evolves_open_a (file : string) : evolves R (open_a file).
Proof. apply evolves_set_texts. Qed.

Lemma evolves_write_line (file line : string) : evolves R (write_line file line).
Proof.
  apply evolves_bind; [apply evolves_set_texts|intros; apply evolves_emit].
Qed.

Lemma evolves_count_lines (file : string) : evolves R (count_lines file).
Proof. now apply evolves_still. Qed.

Lemma evolves_unpickler (file : string) : evolves R (unpickler file).
Proof. now apply evolves_still. Qed.

Lemma evolves_glob_history cfg date : evolves R (glob_history cfg date).
Proof. now apply evolves_still. Qed.

Lemma evolves_default_timer timer : evolves R (default_timer timer).
Proof. now apply evolves_still. Qed.

Lemma evolves_set_walltime t : evolves R (set_walltime t).
Proof. now apply evolves_still. Qed.

Lemma evolves_local {A} var (v : option A) : evolves R (local var v).
Proof. destruct v; now apply evolves_still. Qed.

Hint Resolve evolves_ret evolves_raise evolves_lift evolves_emit
  evolves_open_a evolves_write_line evolves_count_lines evolves_unpickler
  evolves_glob_history evolves_default_timer evolves_set_walltime
  evolves_local : evolve.

Ltac evolve :=
  repeat first
    [ solve [auto with evolve]
    | apply evolves_bind; [|intros] ].

Section Worker.

Variable scandir : string -> list DirEntry.
Variable Filterbank_process :
  string -> string -> string -> string -> string -> CfgManager -> result Meta.
Variable timer : nat -> Z.
Variables (cfg : CfgManager) (date : string).

Hypothesis restore_one_R :
  forall file acc, evolves R (restore_one cfg file acc).
Hypothesis open_own_R :
  evolves R (open_ab (history_log cfg date (RANK cfg))).
Hypothesis dump_own_R :
  forall obj, evolves R (pickle_dump (history_log cfg date (RANK cfg)) obj).

Lemma evolves_restore files acc : evolves R (restore cfg files acc).
Proof.
  revert acc. induction files as [|file files IH]; intros acc; simpl.
  - apply evolves_ret.
  - apply evolves_bind; [apply restore_one_R|intros; apply IH].
Qed.

Lemma evolves_load_completed : evolves R (load_completed cfg date).
Proof.
  unfold load_completed. apply evolves_bind; [auto with evolve|].
  intros found. apply evolves_restore.
Qed.

Hint Resolve evolves_load_completed : evolve.

Lemma evolves_process_files rfi st filelist FILES :
  evolves R (process_files Filterbank_process cfg date rfi st
               (history_log cfg date (RANK cfg)) filelist FILES).
Proof.
  induction FILES as [|FILE rest IH]; simpl; [apply evolves_ret|].
  unfold process. evolve.
Qed.

Hint Resolve evolves_process_files : evolve.

Lemma evolves_process_date EXT :
  evolves R (process_date scandir Filterbank_process timer cfg date EXT).
Proof.
  unfold process_date. evolve.
  destruct (NRANKS cfg =? 0)%nat; auto with evolve.
Qed.

Hint Resolve evolves_process_date : evolve.

Lemma evolves_call :
  evolves R (call scandir Filterbank_process timer cfg date).
Proof.
  unfold call, make_dirs. evolve.
  destruct (raw_or_fil _ _); evolve.
Qed.

End Worker.

End Evolution.

(* ------------------------------------------------------------------ *)
(** ** Reconciliation, one log at a time *)

Lemma restore_one_eq (cfg : CfgManager) (file : string) (acc : list string)
    (w : World) :
  restore_one cfg file acc w
  = match content (pickles w) file with
    | [] =>
        (mkWorld (<[file := [PConfig cfg]]> (pickles w)) (texts w)
                 (timer_reads w) (walltime w)
                 (trace w ++ [EvDump file (PConfig cfg)]),
         Ok acc)
    | _ :: rest => (w, append_fnames rest acc)
    end.
Proof.
  unfold restore_one, bind, unpickler. simpl.
  destruct (content (pickles w) file) as [|hdr rest]; simpl; [|reflexivity].
  unfold content. rewrite lookup_insert_eq. simpl.
  now rewrite insert_insert_eq.
Qed.

Lemma content_Some {A} (fs : gmap string (list A)) (p : string) (c : list A) :
  fs !! p = Some c -> content fs p = c.
Proof. unfold content. now intros ->. Qed.

Global Instance extends_preorder : PreOrder extends.
Proof.
  split.
  - intros fs p c H. exists []. now rewrite app_nil_r.
  - intros fs1 fs2 fs3 H12 H23 p c H.
    destruct (H12 p c H) as [m1 H1]. destruct (H23 p _ H1) as [m2 H2].
    exists (m1 ++ m2). now rewrite app_assoc.
Qed.

Lemma extends_insert_app (fs : gmap string (list Pickled)) (file : string)
    (more : list Pickled) :
  extends fs (<[file := content fs file ++ more]> fs).
Proof.
  intros p c H. destruct (decide (file = p)) as [->|Hne].
  - rewrite lookup_insert_eq, (content_Some _ _ _ H). eauto.
  - rewrite lookup_insert_ne by assumption. exists []. now rewrite app_nil_r.
Qed.

Lemma restore_one_extends cfg file acc : evolves extends (restore_one cfg file acc).
Proof.
  intros w. rewrite restore_one_eq.
  destruct (content (pickles w) file) as [|hdr rest] eqn:E; simpl; [|reflexivity].
  pose proof (extends_insert_app (pickles w) file [PConfig cfg]) as H.
  now rewrite E in H.
Qed.

Lemma open_ab_extends file : evolves extends (open_ab file).
Proof.
  intros w. simpl.
  pose proof (extends_insert_app (pickles w) file []) as H.
  now rewrite app_nil_r in H.
Qed.

Lemma pickle_dump_extends file obj : evolves extends (pickle_dump file obj).
Proof. intros w. simpl. apply extends_insert_app. Qed.

Global Instance same_or_header_preorder cfg p : PreOrder (same_or_header cfg p).
Proof.
  split.
  - intros fs. now left.
  - intros fs1 fs2 fs3 [E12|[Z12 H12]] [E23|[Z23 H23]].
    + left. congruence.
    + right. split; [|assumption]. unfold content in *. now rewrite <- E12.
    + right. split; [assumption|congruence].
    + unfold content in Z23. rewrite H12 in Z23. discriminate.
Qed.

Lemma restore_one_same_or_header cfg p file acc :
  evolves (same_or_header cfg p) (restore_one cfg file acc).
Proof.
  intros w. rewrite restore_one_eq.
  destruct (content (pickles w) file) as [|hdr rest] eqn:E; simpl; [|now left].
  destruct (decide (file = p)) as [->|Hne].
  - right. split; [assumption|apply lookup_insert_eq].
  - left. now apply lookup_insert_ne.
Qed.

Lemma open_ab_other cfg p file :
  p <> file -> evolves (same_or_header cfg p) (open_ab file).
Proof. intros Hne w. left. simpl. now apply lookup_insert_ne. Qed.

Lemma pickle_dump_other cfg p file obj :
  p <> file -> evolves (same_or_header cfg p) (pickle_dump file obj).
Proof. intros Hne w. left. simpl. now apply lookup_insert_ne. Qed.

(* ------------------------------------------------------------------ *)
(** ** Write discipline *)

Section Discipline.

Variable scandir : string -> list DirEntry.
Variable Filterbank_process :
  string -> string -> string -> string -> string -> CfgManager -> result Meta.
Variable timer : nat -> Z.
Variables (cfg : CfgManager) (date : string).

(** C5.  A run of the worker, whether it completes or is cut short by an
    exception, leaves every history log in place with the records it
    held, in the same order, at the front of what it holds afterwards:
    records are only added at the end.  The one place that opens a log
    for writing from scratch (line 192) is reached only for a log that
    holds no record. *)
Theorem logs_append_only (w : World) (p : string) (c : list Pickled) :
  pickles w !! p = Some c ->
  exists more,
    pickles (call scandir Filterbank_process timer cfg date w).1 !! p
    = Some (c ++ more).
Proof.
  revert p c.
  apply (evolves_call extends scandir Filterbank_process timer cfg date).
  - intros; apply restore_one_extends.
  - apply open_ab_extends.
  - intros; apply pickle_dump_extends.
Qed.

(** C4, as amended.  Take any log other than the one named after the
    rank of this worker.  After a run, complete or cut short, it is
    either exactly as it was, or it held no record (absent or empty) and
    now holds the configuration header and nothing else.  So completion
    records go to the worker's own log only; what is written elsewhere
    is the header of a log with no record, during reconciliation. *)
Theorem other_logs_same_or_header (w : World) (p : string) :
  p <> history_log cfg date (RANK cfg) ->
  pickles (call scandir Filterbank_process timer cfg date w).1 !! p
  = pickles w !! p
  \/ (content (pickles w) p = []
      /\ pickles (call scandir Filterbank_process timer cfg date w).1 !! p
         = Some [PConfig cfg]).
Proof.
  intros Hne.
  apply (evolves_call (same_or_header cfg p) scandir Filterbank_process timer
           cfg date).
  - intros; apply restore_one_same_or_header.
  - now apply open_ab_other.
  - intros; now apply pickle_dump_other.
Qed.

End Discipline.

Lemma logs_append_only_witness :
  pickles Example.after_one_rank !! Example.h0
  = Some [PConfig (Example.cfg 0 1); PMeta (Example.meta "a.fil")]
  /\ exists more,
       pickles (call Example.dir
                  Example.steady Example.clock (Example.cfg 1 2) "D"
                  Example.after_one_rank).1 !! Example.h0
       = Some ([PConfig (Example.cfg 0 1); PMeta (Example.meta "a.fil")] ++ more).
Proof.
  split; [vm_compute; reflexivity|].
  apply logs_append_only. vm_compute. reflexivity.
Defined.

(** C4 does not hold as stated: started on a clean installation as
    rank 0 of 2, the worker creates the log named after rank 1 and dumps
    the configuration into it. *)
Lemma writes_log_of_other_rank :
  let c := Example.cfg 0 2 in
  let w' := (call (Example.listing ["a.fil"]) Example.steady Example.clock
               c "D" Example.fresh).1 in
  RANK c <> 1
  /\ history_log c "D" 1 = Example.h1
  /\ pickles Example.fresh !! Example.h1 = None
  /\ pickles w' !! Example.h1 = Some [PConfig c]
  /\ EvDump Example.h1 (PConfig c) ∈ trace w'.
Proof.
  repeat split; try (vm_compute; reflexivity).
  - discriminate.
  - vm_compute. do 3 right. left.
Qed.

Lemma other_logs_same_or_header_witness :
  Example.h0 <> history_log (Example.cfg 1 2) "D" (RANK (Example.cfg 1 2))
  /\ (pickles (call Example.dir
                 Example.steady Example.clock (Example.cfg 1 2) "D"
                 Example.after_one_rank).1 !! Example.h0
      = pickles Example.after_one_rank !! Example.h0
      \/ (content (pickles Example.after_one_rank) Example.h0 = []
          /\ pickles (call Example.dir
                        Example.steady Example.clock (Example.cfg 1 2) "D"
                        Example.after_one_rank).1 !! Example.h0
             = Some [PConfig (Example.cfg 1 2)])).
Proof.
  assert (Example.h0 <> history_log (Example.cfg 1 2) "D" (RANK (Example.cfg 1 2)))
    as Hne by (vm_compute; discriminate).
  split; [exact Hne|].
  apply other_logs_same_or_header, Hne.
Defined.

(* ------------------------------------------------------------------ *)
(** ** The processing loop *)

Section Loop.

Variable Filterbank_process :
  string -> string -> string -> string -> string -> CfgManager -> result Meta.
Variables (cfg : CfgManager) (date rfi st metas_file filelist : string).

Local Abbreviation loop := (process_files Filterbank_process cfg date rfi st
                    metas_file filelist).
Local Abbreviation step FILE :=
  (Filterbank_process (name FILE) (path FILE) date rfi st cfg).

Lemma content_insert {A} (fs : gmap string (list A)) (file : string)
    (c : list A) :
  content (<[file := c]> fs) file = c.
Proof. unfold content. now rewrite lookup_insert_eq. Qed.

Lemma loop_cons_ok (FILE : DirEntry) (rest : list DirEntry) (m : Meta)
    (w : World) :
  step FILE = Ok m ->
  loop (FILE :: rest) w = loop rest (after_item metas_file filelist FILE m w).
Proof.
  intros H. simpl. unfold bind, process, bind, lift. simpl. rewrite H. simpl.
  unfold after_item, item_events. simpl.
  rewrite !content_insert, !insert_insert_eq.
  rewrite length_app, Nat.add_1_r, <- !app_assoc. reflexivity.
Qed.

Lemma loop_cons_fail (FILE : DirEntry) (rest : list DirEntry) (e : exn)
    (w : World) :
  step FILE = Raise e ->
  loop (FILE :: rest) w = (after_failure metas_file filelist FILE w, Raise e).
Proof.
  intros H. simpl. unfold bind, process, bind, lift. simpl. now rewrite H.
Qed.

Lemma loop_all_ok (meta_of : DirEntry -> Meta) (FILES : list DirEntry)
    (w : World) :
  (forall FILE, FILE ∈ FILES -> step FILE = Ok (meta_of FILE)) ->
  loop FILES w = (after_items metas_file filelist meta_of FILES w, Ok tt).
Proof.
  revert w. induction FILES as [|FILE rest IH]; intros w H; [reflexivity|].
  rewrite (loop_cons_ok FILE rest (meta_of FILE)) by (apply H; left).
  simpl. apply IH. intros F HF. apply H. now right.
Qed.

(** The loop stops at the first file whose processing raises. *)
Lemma loop_stops (meta_of : DirEntry -> Meta) (done : list DirEntry)
    (FILE : DirEntry) (rest : list DirEntry) (e : exn) (w : World) :
  (forall F, F ∈ done -> step F = Ok (meta_of F)) ->
  step FILE = Raise e ->
  loop (done ++ FILE :: rest) w
  = (after_failure metas_file filelist FILE
       (after_items metas_file filelist meta_of done w), Raise e).
Proof.
  revert w. induction done as [|F done IH]; intros w H He; simpl app.
  - now apply loop_cons_fail.
  - rewrite (loop_cons_ok F _ (meta_of F)) by (apply H; left).
    simpl. apply IH; [|assumption]. intros F' HF'. apply H. now right.
Qed.

Lemma after_items_trace meta_of FILES w :
  trace (after_items metas_file filelist meta_of FILES w)
  = trace w ++ loop_events metas_file filelist meta_of FILES
                 (length (content (texts w) filelist)).
Proof.
  revert w. induction FILES as [|FILE rest IH]; intros w; simpl.
  - now rewrite app_nil_r.
  - rewrite IH. simpl. rewrite content_insert, length_app, Nat.add_1_r.
    now rewrite <- !app_assoc.
Qed.

Lemma after_items_pickles meta_of FILES w :
  content (pickles (after_items metas_file filelist meta_of FILES w)) metas_file
  = content (pickles w) metas_file ++ ((fun F => PMeta (meta_of F)) <$> FILES).
Proof.
  revert w. induction FILES as [|FILE rest IH]; intros w; simpl.
  - now rewrite app_nil_r.
  - rewrite IH. simpl. rewrite content_insert. now rewrite <- app_assoc.
Qed.

Lemma after_items_texts meta_of FILES w :
  content (texts (after_items metas_file filelist meta_of FILES w)) filelist
  = content (texts w) filelist ++ (name <$> FILES).
Proof.
  revert w. induction FILES as [|FILE rest IH]; intros w; simpl.
  - now rewrite app_nil_r.
  - rewrite IH. simpl. rewrite content_insert. now rewrite <- app_assoc.
Qed.

Lemma after_items_timer meta_of FILES w :
  timer_reads (after_items metas_file filelist meta_of FILES w) = timer_reads w.
Proof. revert w. induction FILES as [|FILE rest IH]; intros w; simpl; [|rewrite IH]; reflexivity. Qed.

End Loop.

(* ------------------------------------------------------------------ *)
(** ** The worker as a whole *)

Section Call.

Variable scandir : string -> list DirEntry.
Variable Filterbank_process :
  string -> string -> string -> string -> string -> CfgManager -> result Meta.
Variable timer : nat -> Z.
Variables (cfg : CfgManager) (date : string).

Local Abbreviation date_path := (os_path_join (store_path cfg) date).
Local Abbreviation beam_rfi_path := (os_path_join (rfi_path cfg) date).
Local Abbreviation beam_state_path := (os_path_join (state_path cfg) date).
Local Abbreviation own_log := (history_log cfg date (RANK cfg)).
Local Abbreviation filelist := (os_path_join beam_state_path "filelist").
Local Abbreviation owned EXT done :=
  (rank_files (remaining (filter_by_ext scandir date_path EXT) done)
     (RANK cfg) (NRANKS cfg)).

(** [__call__] laid out by cases on what its parts return. *)
Lemma call_eq (w : World) :
  call scandir Filterbank_process timer cfg date w
  = match raw_or_fil scandir date_path with
    | None =>
        (mkWorld (pickles w) (texts w) (S (timer_reads w)) (walltime w)
           (trace w ++ [EvMakeDirs [beam_rfi_path; beam_state_path]]),
         Raise (UnboundLocalError "start_time"))
    | Some EXT =>
        match load_completed cfg date (started cfg date w) with
        | (w1, Raise e) => (w1, Raise e)
        | (w1, Ok done) =>
            if (NRANKS cfg =? 0)%nat then (w1, Raise ZeroDivisionError)
            else
              match process_files Filterbank_process cfg date beam_rfi_path
                      beam_state_path own_log filelist (owned EXT done) w1 with
              | (w2, Raise e) => (w2, Raise e)
              | (w2, Ok _) =>
                  (finished timer date (timer (timer_reads w)) w2, Ok tt)
              end
        end
    end.
Proof.
  unfold call, process_date, make_dirs, bind, emit, default_timer, local,
    set_walltime, ret, raise, started, finished. simpl.
  destruct (raw_or_fil scandir date_path) as [EXT|]; simpl; [|reflexivity].
  destruct (load_completed cfg date _) as [w1 [done|e]]; simpl; [|reflexivity].
  destruct (NRANKS cfg =? 0)%nat; simpl; [reflexivity|].
  destruct (process_files _ _ _ _ _ _ _ _ w1) as [w2 [[]|e]]; reflexivity.
Qed.

(** With nothing to analyse, line 261 reads [start_time], which has not
    been assigned. *)
Lemma call_without_data (w : World) :
  raw_or_fil scandir date_path = None ->
  (call scandir Filterbank_process timer cfg date w).2
  = Raise (UnboundLocalError "start_time").
Proof. intros H. rewrite call_eq, H. reflexivity. Qed.

(** C8.  Suppose there is data, reconciliation returns, and the per-file
    step succeeds on every file of this rank's slice.  Then the run
    completes, and from the end of reconciliation on it does, for each file
    of the slice in the order of the slice and one file after the other:
    the per-file step, then the dump of the returned metadata into the
    rank's history log, then the write of the file name into the file
    list, then the log line with the number of lines of the file list;
    after the last file come the two closing log lines.  The rank's log
    has gained the metadata of the slice, in order, and the file list its
    names. *)
Theorem processing_order (w w1 : World) (EXT : string) (done : list string)
    (meta_of : DirEntry -> Meta) :
  raw_or_fil scandir date_path = Some EXT ->
  load_completed cfg date (started cfg date w) = (w1, Ok done) ->
  NRANKS cfg <> 0 ->
  (forall FILE, FILE ∈ owned EXT done ->
     Filterbank_process (name FILE) (path FILE) date beam_rfi_path
       beam_state_path cfg = Ok (meta_of FILE)) ->
  exists w',
    call scandir Filterbank_process timer cfg date w = (w', Ok tt)
    /\ trace w'
       = trace w1
         ++ loop_events own_log filelist meta_of (owned EXT done)
              (length (content (texts w1) filelist))
         ++ [EvLogDone date;
             EvLogTotal (timer (timer_reads w1) - timer (timer_reads w))%Z]
    /\ content (pickles w') own_log
       = content (pickles w1) own_log
         ++ ((fun FILE => PMeta (meta_of FILE)) <$> owned EXT done)
    /\ content (texts w') filelist
       = content (texts w1) filelist ++ (name <$> owned EXT done).
Proof.
  intros Hext Hload Hn Hok.
  rewrite call_eq, Hext, Hload.
  destruct (Nat.eqb_spec (NRANKS cfg) 0) as [|_]; [contradiction|].
  rewrite (loop_all_ok _ _ _ _ _ _ _ meta_of) by exact Hok.
  eexists. split; [reflexivity|].
  unfold finished. simpl.
  rewrite after_items_trace, after_items_pickles, after_items_texts,
    after_items_timer.
  rewrite <- !app_assoc. auto.
Qed.

End Call.

Lemma processing_order_witness :
  let c := Example.cfg 0 1 in
  let ls := Example.listing ["a.fil"; "b.fil"] in
  NRANKS c <> 0
  /\ exists w',
       call ls Example.steady Example.clock c "D" Example.fresh = (w', Ok tt)
       /\ content (pickles w') Example.h0
          = [PConfig c; PMeta (Example.meta "a.fil"); PMeta (Example.meta "b.fil")].
Proof.
  intros c ls. split; [discriminate|].
  destruct (processing_order ls Example.steady Example.clock c "D" Example.fresh
              (load_completed c "D" (started c "D" Example.fresh)).1
              ".fil" [] (fun F => Example.meta (name F)))
    as (w' & Hcall & _ & Hlog & _).
  - vm_compute. reflexivity.
  - vm_compute. reflexivity.
  - discriminate.
  - intros FILE _. reflexivity.
  - exists w'. split; [exact Hcall|].
    etransitivity; [exact Hlog|]. vm_compute. reflexivity.
Defined.

(** The order of the steps on two files, spelled out. *)
Lemma processing_order_two_files :
  trace (call (Example.listing ["a.fil"; "b.fil"]) Example.steady Example.clock
           (Example.cfg 0 1) "D" Example.fresh).1
  = [EvMakeDirs ["rfi/D"; "state/D"];
     EvLogStart "D";
     EvDump Example.h0 (PConfig (Example.cfg 0 1));
     EvProcess "a.fil" "store/D/a.fil";
     EvDump Example.h0 (PMeta (Example.meta "a.fil"));
     EvWrite "state/D/filelist" "a.fil";
     EvLogCount 1;
     EvProcess "b.fil" "store/D/b.fil";
     EvDump Example.h0 (PMeta (Example.meta "b.fil"));
     EvWrite "state/D/filelist" "b.fil";
     EvLogCount 2;
     EvLogDone "D";
     EvLogTotal 1].
Proof. vm_compute. reflexivity. Qed.

(* ------------------------------------------------------------------ *)
(** ** Reconciliation *)

Lemma fnames_app (l1 l2 : list Pickled) : fnames (l1 ++ l2) = fnames l1 ++ fnames l2.
Proof. unfold fnames. apply bind_app. Qed.

Lemma append_fnames_Ok (recs : list Pickled) (acc acc' : list string) :
  append_fnames recs acc = Ok acc' -> acc' = acc ++ fnames recs.
Proof.
  revert acc. induction recs as [|[c|m] recs IH]; intros acc H; simpl in H.
  - injection H as <-. now rewrite app_nil_r.
  - discriminate.
  - apply IH in H. subst. now rewrite <- app_assoc.
Qed.

(** A sequence of completion records is read through without error. *)
Lemma append_fnames_metas (ms : list Meta) (acc : list string) :
  append_fnames (PMeta <$> ms) acc = Ok (acc ++ (fname <$> ms)).
Proof.
  revert acc. induction ms as [|m ms IH]; intros acc; simpl.
  - now rewrite app_nil_r.
  - rewrite IH. now rewrite <- app_assoc.
Qed.

Section Reconciliation.

Variables (cfg : CfgManager) (date : string).

Local Abbreviation matches p :=
  (glob_match (history_prefix cfg date) ".log" p = true).

Lemma restore_one_other (file p : string) (acc : list string) (w : World) :
  p <> file ->
  pickles (restore_one cfg file acc w).1 !! p = pickles w !! p.
Proof.
  intros Hne. rewrite restore_one_eq.
  destruct (content (pickles w) file); simpl; [|reflexivity].
  now apply lookup_insert_ne.
Qed.

Lemma names_of_logs_agree (files : list string)
    (fs fs' : gmap string (list Pickled)) :
  (forall f, f ∈ files -> fs' !! f = fs !! f) ->
  (files ≫= fun f => fnames (tail (content fs' f)))
  = (files ≫= fun f => fnames (tail (content fs f))).
Proof.
  induction files as [|f files IH]; intros H; [reflexivity|].
  change ((fnames (tail (content fs' f))
           ++ (files ≫= fun f => fnames (tail (content fs' f))))
          = (fnames (tail (content fs f))
           ++ (files ≫= fun f => fnames (tail (content fs f))))).
  rewrite IH by (intros g Hg; apply H; now right).
  unfold content. rewrite (H f) by left. reflexivity.
Qed.

(** What a completed pass over the logs has collected: the names in the
    records that follow the first one, log after log. *)
Lemma restore_names (files : list string) (acc acc' : list string) (w w' : World) :
  NoDup files ->
  restore cfg files acc w = (w', Ok acc') ->
  acc' = acc ++ (files ≫= fun f => fnames (tail (content (pickles w) f))).
Proof.
  revert acc w. induction files as [|file files IH]; intros acc w Hnd H.
  - simpl in H. injection H as _ <-. now rewrite app_nil_r.
  - apply NoDup_cons in Hnd as [Hnotin Hnd].
    simpl in H. unfold bind in H.
    pose proof (restore_one_eq cfg file acc w) as E1.
    pose proof (fun p => restore_one_other file p acc w) as Eo.
    destruct (restore_one cfg file acc w) as [w1 [acc1|e]]; [|discriminate].
    simpl in Eo. apply (IH _ _ Hnd) in H. subst acc'.
    rewrite (names_of_logs_agree files (pickles w) (pickles w1))
      by (intros f Hf; apply Eo; intros ->; contradiction).
    change ((file :: files) ≫= fun f => fnames (tail (content (pickles w) f)))
      with (fnames (tail (content (pickles w) file))
            ++ (files ≫= fun f => fnames (tail (content (pickles w) f)))).
    rewrite app_assoc. f_equal.
    destruct (content (pickles w) file) as [|hdr rest] eqn:Ec.
    + injection E1 as _ <-. now rewrite app_nil_r.
    + injection E1 as _ E1. symmetry in E1. now apply append_fnames_Ok in E1.
Qed.

Lemma restore_keeps (files : list string) (acc : list string) (w : World)
    (p : string) :
  p ∉ files \/ content (pickles w) p <> [] ->
  pickles (restore cfg files acc w).1 !! p = pickles w !! p.
Proof.
  revert acc w. induction files as [|file files IH]; intros acc w H; [reflexivity|].
  simpl. unfold bind.
  assert (pickles (restore_one cfg file acc w).1 !! p = pickles w !! p) as E1.
  { destruct (decide (p = file)) as [->|Hne]; [|now apply restore_one_other].
    destruct H as [H|H]; [exfalso; apply H; left|].
    rewrite restore_one_eq.
    destruct (content (pickles w) file); [contradiction|reflexivity]. }
  destruct (restore_one cfg file acc w) as [w1 [acc1|e]]; simpl in *; [|exact E1].
  rewrite IH; [exact E1|].
  destruct H as [H|H]; [left; intros Hin; apply H; now right|].
  right. unfold content in *. now rewrite E1.
Qed.

Lemma restore_initialises (files : list string) (acc acc' : list string)
    (w w' : World) (p : string) :
  restore cfg files acc w = (w', Ok acc') ->
  p ∈ files -> content (pickles w) p = [] ->
  pickles w' !! p = Some [PConfig cfg].
Proof.
  revert acc w. induction files as [|file files IH]; intros acc w H Hin Hz.
  - inversion Hin.
  - simpl in H. unfold bind in H.
    pose proof (restore_one_eq cfg file acc w) as E1.
    pose proof (restore_one_other file p acc w) as Eo.
    destruct (restore_one cfg file acc w) as [w1 [acc1|e]]; [|discriminate].
    simpl in Eo.
    destruct (decide (p = file)) as [->|Hne].
    + rewrite Hz in E1. injection E1 as -> _.
      replace w' with (restore cfg files acc1
                         (mkWorld (<[file := [PConfig cfg]]> (pickles w)) (texts w)
                            (timer_reads w) (walltime w)
                            (trace w ++ [EvDump file (PConfig cfg)]))).1
        by now rewrite H.
      rewrite restore_keeps.
      * simpl. apply lookup_insert_eq.
      * right. simpl. now rewrite content_insert.
    + apply (IH _ _ H).
      * apply elem_of_cons in Hin as [?|?]; [contradiction|assumption].
      * unfold content in *. now rewrite Eo.
Qed.

(** The logs found by the pattern of line 173. *)
Lemma glob_history_found (w : World) (p : string) :
  p ∈ filter (fun p => matches p) (map_to_list (pickles w)).*1
  <-> matches p /\ is_Some (pickles w !! p).
Proof.
  rewrite list_elem_of_filter, list_elem_of_fmap. split.
  - intros [Hm ([q c] & -> & Hin)]. apply elem_of_map_to_list in Hin.
    split; [assumption|]. simpl. eauto.
  - intros [Hm [c Hc]]. split; [assumption|].
    exists (p, c). split; [reflexivity|]. now apply elem_of_map_to_list.
Qed.

Lemma glob_history_NoDup (w : World) :
  NoDup (filter (fun p => matches p) (map_to_list (pickles w)).*1).
Proof. apply NoDup_filter, NoDup_fst_map_to_list. Qed.

Lemma synthesized_NoDup : NoDup (history_log cfg date <$> seq 0 (NRANKS cfg)).
Proof.
  apply NoDup_fmap_2; [|apply NoDup_seq].
  intros r r'. apply history_log_inj.
Qed.

Lemma load_completed_eq (w : World) :
  load_completed cfg date w
  = restore cfg
      match filter (fun p => matches p) (map_to_list (pickles w)).*1 with
      | [] => history_log cfg date <$> seq 0 (NRANKS cfg)
      | found => found
      end [] w.
Proof.
  unfold load_completed, bind, glob_history.
  now destruct (filter _ _).
Qed.

(** The completed set, when reconciliation returns one: exactly the names
    carried by the records that follow the first record of some existing
    log matched by the pattern. *)
Lemma load_completed_names (w w' : World) (done : list string) (n : string) :
  load_completed cfg date w = (w', Ok done) ->
  n ∈ done
  <-> exists p hdr recs,
        matches p /\ pickles w !! p = Some (hdr :: recs) /\ n ∈ fnames recs.
Proof.
  rewrite load_completed_eq. intros H.
  pose proof (glob_history_found w) as Hfound.
  pose proof (glob_history_NoDup w) as Hnd.
  destruct (filter _ _) as [|f found] eqn:E.
  - apply restore_names in H; [|apply synthesized_NoDup]. subst done. simpl.
    split.
    + intros Hin. apply list_elem_of_bind in Hin as (p & Hn & Hp).
      apply list_elem_of_fmap in Hp as (r & -> & _).
      destruct (pickles w !! history_log cfg date r) as [c|] eqn:Ec.
      * assert (history_log cfg date r ∈ @nil string) as Hin.
        { apply Hfound. split; [apply history_log_matches|eauto]. }
        inversion Hin.
      * unfold content in Hn. rewrite Ec in Hn. inversion Hn.
    + intros (p & hdr & recs & Hm & Hp & _).
      assert (p ∈ @nil string) as Hin by (apply Hfound; eauto).
      inversion Hin.
  - apply restore_names in H; [|assumption]. subst done.
    rewrite app_nil_l, list_elem_of_bind. split.
    + intros (p & Hn & Hp). apply Hfound in Hp as [Hm [c Hc]].
      unfold content in Hn. rewrite Hc in Hn. simpl in Hn.
      destruct c as [|hdr recs]; [inversion Hn|].
      exists p, hdr, recs. auto.
    + intros (p & hdr & recs & Hm & Hp & Hn). exists p. split.
      * unfold content. now rewrite Hp.
      * apply Hfound. eauto.
Qed.

(** Logs that hold nothing, or only the header, are passed without error
    and add no name. *)
Lemma restore_blank (files : list string) (acc : list string) (w : World) :
  (forall f, f ∈ files ->
     content (pickles w) f = [] \/ content (pickles w) f = [PConfig cfg]) ->
  exists w', restore cfg files acc w = (w', Ok acc).
Proof.
  revert w. induction files as [|file files IH]; intros w H; simpl.
  - eexists. reflexivity.
  - unfold bind. rewrite restore_one_eq.
    destruct (H file) as [E|E]; [left| |]; rewrite E; simpl.
    + apply IH. intros f Hf. simpl.
      destruct (decide (f = file)) as [->|Hne].
      * right. apply content_insert.
      * unfold content. rewrite lookup_insert_ne by congruence.
        apply H. now right.
    + apply IH. intros f Hf. apply H. now right.
Qed.

(** C7, as amended.  (1) The names in the completed set come from logs
    that hold at least two records, so a log that exists and holds no
    record adds none; (2) such a log is given the configuration header;
    (3) when no matched log holds any record, reconciliation returns the
    empty set; (4) when no log exists at all, the logs named after ranks
    [0 .. NRANKS-1] are created, each with the configuration header as its
    only record, and nothing else is touched. *)
Theorem empty_log_bootstrap (w : World) :
  (forall w' done n,
     load_completed cfg date w = (w', Ok done) -> n ∈ done ->
     exists p hdr recs,
       matches p /\ pickles w !! p = Some (hdr :: recs) /\ n ∈ fnames recs)
  /\ (forall w' done p,
        load_completed cfg date w = (w', Ok done) ->
        matches p -> pickles w !! p = Some [] ->
        pickles w' !! p = Some [PConfig cfg])
  /\ ((forall p, matches p -> content (pickles w) p = []) ->
      exists w', load_completed cfg date w = (w', Ok []))
  /\ ((forall p, matches p -> pickles w !! p = None) ->
      (forall rnk, rnk < NRANKS cfg ->
         pickles (load_completed cfg date w).1 !! history_log cfg date rnk
         = Some [PConfig cfg])
      /\ (forall p, (forall rnk, rnk < NRANKS cfg -> p <> history_log cfg date rnk) ->
            pickles (load_completed cfg date w).1 !! p = pickles w !! p)).
Proof.
  pose proof (glob_history_found w) as Hfound.
  assert (forall files,
            files = match filter (fun p => matches p) (map_to_list (pickles w)).*1 with
                    | [] => history_log cfg date <$> seq 0 (NRANKS cfg)
                    | found => found
                    end ->
            forall f, f ∈ files -> matches f) as Hfiles.
  { intros files -> f Hf. destruct (filter _ _) as [|g found] eqn:E.
    - apply list_elem_of_fmap in Hf as (r & -> & _). apply history_log_matches.
    - now apply Hfound in Hf as [? _]. }
  assert ((forall p, matches p -> content (pickles w) p = []) ->
          exists w', load_completed cfg date w = (w', Ok [])) as Hblank.
  { intros Hz. rewrite load_completed_eq. apply restore_blank.
    intros f Hf. left. apply Hz. eapply Hfiles; [reflexivity|exact Hf]. }
  split; [|split; [|split]].
  - intros w' done n H Hn. now apply (load_completed_names w w' done n H).
  - intros w' done p H Hm Hp. rewrite load_completed_eq in H.
    assert (p ∈ filter (fun p => matches p) (map_to_list (pickles w)).*1) as Hin
      by (apply Hfound; eauto).
    destruct (filter _ _) as [|g found] eqn:E; [inversion Hin|].
    apply (restore_initialises _ _ _ _ _ _ H Hin). now apply content_Some.
  - exact Hblank.
  - intros Hnone.
    assert (filter (fun p => matches p) (map_to_list (pickles w)).*1 = []) as E.
    { destruct (filter _ _) as [|g found] eqn:E; [reflexivity|].
      assert (g ∈ g :: found) as Hg by left.
      apply Hfound in Hg as [Hm [c Hc]]. rewrite (Hnone g Hm) in Hc. discriminate. }
    destruct Hblank as [w' Hw'].
    { intros p Hm. unfold content. now rewrite (Hnone p Hm). }
    split.
    + intros rnk Hr. rewrite Hw'. simpl.
      rewrite load_completed_eq, E in Hw'.
      apply (restore_initialises _ _ _ _ _ _ Hw').
      * apply list_elem_of_fmap. exists rnk. split; [reflexivity|].
        apply elem_of_seq. lia.
      * unfold content. now rewrite (Hnone _ (history_log_matches cfg date rnk)).
    + intros p Hp. rewrite load_completed_eq, E. apply restore_keeps. left.
      intros Hin. apply list_elem_of_fmap in Hin as (r & -> & Hr).
      apply elem_of_seq in Hr. apply (Hp r); [lia|reflexivity].
Qed.

End Reconciliation.

Lemma empty_log_bootstrap_witness :
  (forall p, glob_match (history_prefix (Example.cfg 0 2) "D") ".log" p = true ->
             pickles Example.fresh !! p = None)
  /\ pickles (load_completed (Example.cfg 0 2) "D" Example.fresh).1
       !! history_log (Example.cfg 0 2) "D" 1
     = Some [PConfig (Example.cfg 0 2)].
Proof.
  assert (forall p, glob_match (history_prefix (Example.cfg 0 2) "D") ".log" p = true ->
                    pickles Example.fresh !! p = None) as Hnone
    by (intros p _; apply lookup_empty).
  split; [exact Hnone|].
  destruct (empty_log_bootstrap (Example.cfg 0 2) "D" Example.fresh)
    as (_ & _ & _ & Hboot).
  apply (Hboot Hnone). simpl. lia.
Defined.

(** C7 does not hold as stated: the logs made on a first run are not
    empty, each holds the pickled configuration. *)
Lemma bootstrap_log_not_empty :
  let c := Example.cfg 0 2 in
  let w' := (load_completed c "D" Example.fresh).1 in
  pickles Example.fresh = ∅
  /\ (load_completed c "D" Example.fresh).2 = Ok []
  /\ pickles w' !! Example.h0 = Some [PConfig c]
  /\ pickles w' !! Example.h1 = Some [PConfig c]
  /\ content (pickles w') Example.h0 <> [].
Proof.
  repeat split; try (vm_compute; reflexivity).
  vm_compute. discriminate.
Qed.

(* ------------------------------------------------------------------ *)
(** ** A failure of the per-file step *)

Section Failure.

Variable scandir : string -> list DirEntry.
Variable Filterbank_process :
  string -> string -> string -> string -> string -> CfgManager -> result Meta.
Variable timer : nat -> Z.
Variables (cfg : CfgManager) (date : string).

Local Abbreviation date_path := (os_path_join (store_path cfg) date).
Local Abbreviation beam_rfi_path := (os_path_join (rfi_path cfg) date).
Local Abbreviation beam_state_path := (os_path_join (state_path cfg) date).
Local Abbreviation own_log := (history_log cfg date (RANK cfg)).
Local Abbreviation filelist := (os_path_join beam_state_path "filelist").

(** When the per-file step raises on a file of the slice, the exception
    leaves [__call__]; the rank's log has gained the metadata of the files
    that came before it in the slice and nothing more, and the per-file
    step has been started on those files and on the failing one only. *)
Lemma failure_propagates (w w1 : World) (EXT : string) (done : list string)
    (meta_of : DirEntry -> Meta) (before : list DirEntry) (FILE : DirEntry)
    (rest : list DirEntry) (e : exn) :
  raw_or_fil scandir date_path = Some EXT ->
  load_completed cfg date (started cfg date w) = (w1, Ok done) ->
  NRANKS cfg <> 0 ->
  rank_files (remaining (filter_by_ext scandir date_path EXT) done)
    (RANK cfg) (NRANKS cfg) = before ++ FILE :: rest ->
  (forall F, F ∈ before ->
     Filterbank_process (name F) (path F) date beam_rfi_path beam_state_path cfg
     = Ok (meta_of F)) ->
  Filterbank_process (name FILE) (path FILE) date beam_rfi_path beam_state_path cfg
  = Raise e ->
  exists w',
    call scandir Filterbank_process timer cfg date w = (w', Raise e)
    /\ content (pickles w') own_log
       = content (pickles w1) own_log ++ ((fun F => PMeta (meta_of F)) <$> before)
    /\ trace w'
       = trace w1
         ++ loop_events own_log filelist meta_of before
              (length (content (texts w1) filelist))
         ++ [EvProcess (name FILE) (path FILE)].
Proof.
  intros Hext Hload Hn Hsplit Hok Hfail.
  rewrite call_eq, Hext, Hload.
  destruct (Nat.eqb_spec (NRANKS cfg) 0) as [|_]; [contradiction|].
  rewrite Hsplit.
  rewrite (loop_stops _ _ _ _ _ _ _ meta_of before FILE rest e) by assumption.
  eexists. split; [reflexivity|].
  unfold after_failure. simpl.
  rewrite content_insert, after_items_pickles, after_items_trace.
  rewrite <- !app_assoc. auto.
Qed.

End Failure.

(* ------------------------------------------------------------------ *)
(** ** Logs of earlier runs *)

(** Whatever rank index names a log, within the current number of ranks or
    beyond it, the names in its records after the first are in the
    completed set and the files so named are not handed out again. *)
Lemma completed_from_any_rank (cfg : CfgManager) (date : string) (rnk : nat)
    (w w' : World) (done : list string) (hdr : Pickled) (recs : list Pickled)
    (FILES : list DirEntry) (FILE : DirEntry) :
  pickles w !! history_log cfg date rnk = Some (hdr :: recs) ->
  load_completed cfg date w = (w', Ok done) ->
  name FILE ∈ fnames recs ->
  name FILE ∈ done /\ FILE ∉ remaining FILES done.
Proof.
  intros Hlog Hload Hn.
  assert (name FILE ∈ done) as Hin.
  { apply (load_completed_names cfg date w w' done (name FILE) Hload).
    exists (history_log cfg date rnk), hdr, recs.
    split; [apply history_log_matches|auto]. }
  split; [exact Hin|].
  unfold remaining. rewrite list_elem_of_filter. tauto.
Qed.

Section NewRank.

Variable scandir : string -> list DirEntry.
Variable Filterbank_process :
  string -> string -> string -> string -> string -> CfgManager -> result Meta.
Variable timer : nat -> Z.
Variables (cfg : CfgManager) (date : string).

Local Abbreviation date_path := (os_path_join (store_path cfg) date).
Local Abbreviation beam_rfi_path := (os_path_join (rfi_path cfg) date).
Local Abbreviation beam_state_path := (os_path_join (state_path cfg) date).
Local Abbreviation own_log := (history_log cfg date (RANK cfg)).

(** A rank whose log does not exist while the log of some other rank
    does: nothing initialises its log, and after a run that completes
    the log holds the metadata of the slice from its first record on. *)
Lemma own_log_without_header (w w1 : World) (EXT : string) (done : list string)
    (meta_of : DirEntry -> Meta) (p : string) :
  raw_or_fil scandir date_path = Some EXT ->
  load_completed cfg date (started cfg date w) = (w1, Ok done) ->
  NRANKS cfg <> 0 ->
  glob_match (history_prefix cfg date) ".log" p = true ->
  is_Some (pickles w !! p) ->
  pickles w !! own_log = None ->
  (forall FILE,
     FILE ∈ rank_files (remaining (filter_by_ext scandir date_path EXT) done)
              (RANK cfg) (NRANKS cfg) ->
     Filterbank_process (name FILE) (path FILE) date beam_rfi_path
       beam_state_path cfg = Ok (meta_of FILE)) ->
  content (pickles (call scandir Filterbank_process timer cfg date w).1) own_log
  = (fun FILE => PMeta (meta_of FILE))
    <$> rank_files (remaining (filter_by_ext scandir date_path EXT) done)
          (RANK cfg) (NRANKS cfg).
Proof.
  intros Hext Hload Hn Hm Hp Hown Hok.
  assert (content (pickles w1) own_log = []) as Hblank.
  { replace w1 with (load_completed cfg date (started cfg date w)).1
      by now rewrite Hload.
    rewrite load_completed_eq. simpl.
    pose proof (glob_history_found cfg date w) as Hfound.
    assert (p ∈ filter (fun q => glob_match (history_prefix cfg date) ".log" q = true)
                  (map_to_list (pickles w)).*1) as Hin by (apply Hfound; auto).
    destruct (filter _ _) as [|g found] eqn:E; [inversion Hin|].
    unfold content. rewrite restore_keeps; [simpl; now rewrite Hown|].
    left. intros Hin'. apply Hfound in Hin' as [_ [c Hc]].
    simpl in Hc. congruence. }
  rewrite call_eq, Hext, Hload.
  destruct (Nat.eqb_spec (NRANKS cfg) 0) as [|_]; [contradiction|].
  rewrite (loop_all_ok _ _ _ _ _ _ _ meta_of) by exact Hok.
  simpl. now rewrite after_items_pickles, Hblank.
Qed.

End NewRank.

(** The state from which the runs below start: one rank has completed
    [a.fil] and failed on [b.fil]. *)
Lemma after_one_rank_logs :
  pickles Example.after_one_rank !! Example.h0
  = Some [PConfig (Example.cfg 0 1); PMeta (Example.meta "a.fil")]
  /\ pickles Example.after_one_rank !! Example.h1 = None
  /\ (call Example.dir (Example.failing_on "b.fil") Example.clock
        (Example.cfg 0 1) "D" Example.fresh).2 = Raise (ExternalError "b.fil").
Proof. repeat split; vm_compute; reflexivity. Qed.

(** C3.  In a directory with neither raw nor filterbank files the worker
    makes its directories, skips the processing branch, reads the timer
    and then fails on the unassigned [start_time]: the run ends in
    [UnboundLocalError] instead of ending quietly. *)
Theorem no_data_reads_unset_start_time :
  raw_or_fil (Example.listing ["notes.txt"]) "store/D" = None
  /\ call (Example.listing ["notes.txt"]) Example.steady Example.clock
       (Example.cfg 0 1) "D" Example.fresh
     = (mkWorld ∅ ∅ 1 None [EvMakeDirs ["rfi/D"; "state/D"]],
        Raise (UnboundLocalError "start_time")).
Proof. split; vm_compute; reflexivity. Qed.

(** C10.  Resumed as rank 1 of 2 after a run with a single rank, the
    worker finds the log of rank 0 only, so it initialises none; it then
    opens its own log, which does not exist yet, for appending, and the
    metadata of [d.fil] becomes the first record of that log: there is no
    configuration header, and the first completion record of the rank
    sits at position 0.  The next reconciliation drops that first record:
    [e.fil] is in the completed set, [d.fil] is not. *)
Theorem new_rank_log_has_no_header :
  let c := Example.cfg 1 2 in
  let r := call Example.dir Example.steady Example.clock c "D"
             Example.after_one_rank in
  history_log c "D" (RANK c) = Example.h1
  /\ pickles Example.after_one_rank !! Example.h1 = None
  /\ r.2 = Ok tt
  /\ pickles r.1 !! Example.h1
     = Some [PMeta (Example.meta "d.fil"); PMeta (Example.meta "e.fil")]
  /\ pickles r.1 !! Example.h0 = pickles Example.after_one_rank !! Example.h0
  /\ (load_completed c "D" r.1).2 = Ok ["e.fil"; "a.fil"].
Proof. repeat split; vm_compute; reflexivity. Qed.

(** C2.  A date is worked on by one rank, then by two ranks, of which
    rank 1 completes [d.fil] and [e.fil], and is then resumed with three
    ranks.  The log of rank 1 is found and names [d.fil], but
    reconciliation does not return it: [d.fil] stays in the list, falls
    into the slice of rank 1 of 3 and is processed a second time. *)
Theorem resumed_run_misses_completed_file :
  let w2 := Example.after_two_ranks in
  let c3 := Example.cfg 1 3 in
  pickles w2 !! Example.h0
  = Some [PConfig (Example.cfg 0 1); PMeta (Example.meta "a.fil");
          PMeta (Example.meta "b.fil")]
  /\ pickles w2 !! Example.h1
     = Some [PMeta (Example.meta "d.fil"); PMeta (Example.meta "e.fil")]
  /\ glob_match (history_prefix c3 "D") ".log" Example.h1 = true
  /\ (load_completed c3 "D" w2).2 = Ok ["e.fil"; "a.fil"; "b.fil"]
  /\ remaining (filter_by_ext Example.dir "store/D" ".fil")
       ["e.fil"; "a.fil"; "b.fil"]
     = [Example.entry "c.fil"; Example.entry "d.fil"]
  /\ rank_files [Example.entry "c.fil"; Example.entry "d.fil"] 1 3
     = [Example.entry "d.fil"]
  /\ EvProcess "d.fil" "store/D/d.fil"
     ∈ drop (length (trace w2))
         (trace (call Example.dir Example.steady Example.clock c3 "D" w2).1).
Proof.
  repeat split; try (vm_compute; reflexivity).
  vm_compute. do 2 right. left.
Qed.

(** C6.  Resumed as rank 1 of 2 after a run with a single rank, the worker
    owns [d.fil] and [e.fil]; [d.fil] is processed and recorded, [e.fil]
    fails and the exception leaves the worker.  The record of [d.fil] is
    in the log of rank 1 and there is none for [e.fil], but that record is
    the first of a log without header: the next reconciliation does not
    count [d.fil] as completed and it is in the list to process again. *)
Theorem record_before_failure_not_honoured :
  let c := Example.cfg 1 2 in
  let r := call Example.dir (Example.failing_on "e.fil") Example.clock c "D"
             Example.after_one_rank in
  r.2 = Raise (ExternalError "e.fil")
  /\ pickles r.1 !! Example.h1 = Some [PMeta (Example.meta "d.fil")]
  /\ (load_completed c "D" r.1).2 = Ok ["a.fil"]
  /\ Example.entry "d.fil"
     ∈ remaining (filter_by_ext Example.dir "store/D" ".fil") ["a.fil"].
Proof.
  repeat split; try (vm_compute; reflexivity).
  vm_compute. do 2 right. left.
Qed.

(* ================================================================== *)
(** * Further properties of the code *)

(* ------------------------------------------------------------------ *)
(** ** The share of a rank *)

Lemma n_files_per_rank_bounds (len nranks : nat) :
  1 <= nranks ->
  len <= n_files_per_rank len nranks * nranks
  /\ (forall k, len <= k * nranks -> n_files_per_rank len nranks <= k).
Proof.
  intros H. unfold n_files_per_rank.
  pose proof (Nat.div_mod_eq len nranks) as E.
  pose proof (Nat.mod_upper_bound len nranks ltac:(lia)) as U.
  destruct (Nat.eqb_spec (len mod nranks) 0) as [Z|NZ]; split;
    try intros k Hk; nia.
Qed.

(** X1.  The number computed by lines 200-207 is the quotient rounded up:
    with at least one rank, that many files per rank are enough for the
    whole list, and no smaller number is. *)
Theorem n_files_per_rank_is_ceiling (len nranks : nat) :
  1 <= nranks ->
  len <= n_files_per_rank len nranks * nranks
  /\ (forall k, len <= k * nranks -> n_files_per_rank len nranks <= k).
Proof. apply n_files_per_rank_bounds. Qed.

Lemma n_files_per_rank_is_ceiling_witness :
  1 <= 3 /\ 10 <= n_files_per_rank 10 3 * 3.
Proof.
  split; [lia|]. apply (n_files_per_rank_is_ceiling 10 3). lia.
Defined.

Lemma rank_files_length_eq {A : Type} (FILES : list A) (rank nranks : nat) :
  1 <= nranks ->
  length (rank_files FILES rank nranks)
  = Nat.min (n_files_per_rank (length FILES) nranks)
            (length FILES - rank * n_files_per_rank (length FILES) nranks).
Proof.
  intros H.
  destruct (n_files_per_rank_bounds (length FILES) nranks H) as [Hup _].
  unfold rank_files, slice, slice_from.
  destruct (Nat.eqb_spec rank (nranks - 1)) as [->|Hne].
  - rewrite length_drop. nia.
  - rewrite length_take, length_drop. nia.
Qed.

(** X2.  With at least one rank, the slice of rank [rank] holds
    [min(per, len - rank * per)] files, where [per] is the number of files
    per rank and the difference stops at zero.  So no rank is given more
    than [per] files, and a rank is never given more files than a rank
    before it: the ranks at the end are the ones that run short. *)
Theorem rank_files_length {A : Type} (FILES : list A) (nranks : nat) :
  1 <= nranks ->
  (forall rank,
     length (rank_files FILES rank nranks)
     = Nat.min (n_files_per_rank (length FILES) nranks)
               (length FILES - rank * n_files_per_rank (length FILES) nranks))
  /\ (forall rank,
        length (rank_files FILES rank nranks)
        <= n_files_per_rank (length FILES) nranks)
  /\ (forall rank rank',
        rank <= rank' ->
        length (rank_files FILES rank' nranks)
        <= length (rank_files FILES rank nranks)).
Proof.
  intros H. split; [|split].
  - intros rank. now apply rank_files_length_eq.
  - intros rank. rewrite rank_files_length_eq by assumption. lia.
  - intros rank rank' Hle. rewrite !rank_files_length_eq by assumption. nia.
Qed.

Lemma rank_files_length_witness :
  1 <= 4 /\ length (rank_files (seq 0 5) 2 4) = 1
  /\ length (rank_files (seq 0 5) 3 4) = 0.
Proof.
  split; [lia|].
  destruct (rank_files_length (seq 0 5) 4) as [H _]; [lia|].
  split; rewrite H; reflexivity.
Defined.

(** X3.  With at least as many ranks as files, the number of files per
    rank is at most one: rank [rank] is given the file at position [rank]
    when there is one and nothing otherwise, so the ranks from the number
    of files on are idle. *)
Theorem rank_files_more_ranks_than_files {A : Type} (FILES : list A)
    (rank nranks : nat) :
  1 <= nranks -> length FILES <= nranks ->
  rank_files FILES rank nranks = take 1 (drop rank FILES).
Proof.
  intros H Hle.
  destruct (n_files_per_rank_bounds (length FILES) nranks H) as [Hup Hleast].
  assert (n_files_per_rank (length FILES) nranks <= 1) as Hper
    by (apply Hleast; lia).
  destruct (Nat.eq_dec (length FILES) 0) as [Z|NZ].
  - apply length_zero_iff_nil in Z. subst FILES.
    unfold rank_files, slice, slice_from.
    destruct (rank =? nranks - 1)%nat; now rewrite ?drop_nil, ?take_nil.
  - assert (n_files_per_rank (length FILES) nranks = 1) as E by nia.
    unfold rank_files, slice, slice_from. rewrite E, !Nat.mul_1_r.
    destruct (Nat.eqb_spec rank (nranks - 1)) as [->|Hne].
    + symmetry. apply take_ge. rewrite length_drop. lia.
    + f_equal. lia.
Qed.

Lemma rank_files_more_ranks_than_files_witness :
  1 <= 3 /\ length ["x"; "y"] <= 3
  /\ rank_files ["x"; "y"] 2 3 = take 1 (drop 2 ["x"; "y"]).
Proof.
  split; [lia|]. split; [simpl; lia|].
  apply rank_files_more_ranks_than_files; simpl; lia.
Defined.

(* ------------------------------------------------------------------ *)
(** ** More on reconciliation *)





Lemma append_fnames_total (recs : list Pickled) (acc : list string) :
  Forall is_meta recs -> exists acc', append_fnames recs acc = Ok acc'.
Proof.
  intros H. revert acc. induction H as [|r recs [m ->] _ IH]; intros acc; simpl.
  - eauto.
  - apply IH.
Qed.

Lemma append_fnames_readable (recs : list Pickled) (acc acc' : list string) :
  append_fnames recs acc = Ok acc' -> Forall is_meta recs.
Proof.
  revert acc. induction recs as [|[c|m] recs IH]; intros acc H; simpl in H.
  - constructor.
  - discriminate.
  - constructor; [now exists m|]. eapply IH, H.
Qed.

Section Twice.

Variables (cfg : CfgManager) (date : string).

Local Abbreviation matches p :=
  (glob_match (history_prefix cfg date) ".log" p = true).

Lemma restore_total (files : list string) (acc : list string) (w : World) :
  (forall f, f ∈ files -> Forall is_meta (tail (content (pickles w) f))) ->
  exists w' acc', restore cfg files acc w = (w', Ok acc').
Proof.
  revert acc w. induction files as [|file files IH]; intros acc w H; simpl.
  - eauto.
  - unfold bind. rewrite restore_one_eq.
    destruct (content (pickles w) file) as [|hdr rest] eqn:E.
    + apply IH. intros f Hf. simpl.
      destruct (decide (f = file)) as [->|Hne].
      * rewrite content_insert. constructor.
      * unfold content. rewrite lookup_insert_ne by congruence.
        apply H. now right.
    + assert (Forall is_meta rest) as Hr.
      { specialize (H file ltac:(left)). now rewrite E in H. }
      destruct (append_fnames_total rest acc Hr) as [acc1 ->].
      apply IH. intros f Hf. apply H. now right.
Qed.

Lemma restore_readable (files : list string) (acc acc' : list string)
    (w w' : World) :
  NoDup files ->
  restore cfg files acc w = (w', Ok acc') ->
  forall f, f ∈ files -> Forall is_meta (tail (content (pickles w) f)).
Proof.
  revert acc w. induction files as [|file files IH]; intros acc w Hnd H f Hf.
  - inversion Hf.
  - apply NoDup_cons in Hnd as [Hnotin Hnd].
    simpl in H. unfold bind in H.
    pose proof (restore_one_eq cfg file acc w) as E1.
    pose proof (restore_one_other cfg file f acc w) as Eo.
    destruct (restore_one cfg file acc w) as [w1 [acc1|e]]; [|discriminate].
    simpl in Eo.
    apply elem_of_cons in Hf as [->|Hf].
    + destruct (content (pickles w) file) as [|hdr rest]; [constructor|].
      injection E1 as _ E1. symmetry in E1. simpl.
      eapply append_fnames_readable, E1.
    + specialize (IH _ _ Hnd H f Hf).
      unfold content in *. rewrite Eo in IH; [exact IH|].
      intros ->. contradiction.
Qed.

End Twice.

Section Idempotence.

Variables (cfg : CfgManager) (date : string).

Local Abbreviation matches p :=
  (glob_match (history_prefix cfg date) ".log" p = true).
Local Abbreviation found w :=
  (filter (fun p => matches p) (map_to_list (pickles w)).*1).
Local Abbreviation to_read w :=
  (match found w with
   | [] => history_log cfg date <$> seq 0 (NRANKS cfg)
   | l => l
   end).

Lemma to_read_matches (w : World) (f : string) : f ∈ to_read w -> matches f.
Proof.
  intros Hf. destruct (found w) as [|g l] eqn:E.
  - apply list_elem_of_fmap in Hf as (r & -> & _). apply history_log_matches.
  - rewrite <- E in Hf. now apply glob_history_found in Hf as [? _].
Qed.

Lemma to_read_existing (w : World) (p : string) :
  matches p -> is_Some (pickles w !! p) -> p ∈ to_read w.
Proof.
  intros Hm Hp.
  assert (p ∈ found w) as Hin by (apply glob_history_found; auto).
  destruct (found w); [inversion Hin|exact Hin].
Qed.

Lemma to_read_NoDup (w : World) : NoDup (to_read w).
Proof.
  pose proof (glob_history_NoDup cfg date w) as H.
  destruct (found w); [apply synthesized_NoDup|exact H].
Qed.

Lemma load_completed_step (w : World) (p : string) :
  same_or_header cfg p (pickles w) (pickles (load_completed cfg date w).1).
Proof.
  apply (evolves_load_completed (same_or_header cfg p) cfg date).
  intros; apply restore_one_same_or_header.
Qed.

(** After a reconciliation that returned, no log matched by the pattern
    is without record. *)
Lemma reconciled_logs_have_header (w w1 : World) (done : list string)
    (p : string) (c : list Pickled) :
  load_completed cfg date w = (w1, Ok done) ->
  matches p -> pickles w1 !! p = Some c -> c <> [].
Proof.
  intros H Hm Hp ->.
  pose proof (load_completed_step w p) as Hstep. rewrite H in Hstep. simpl in Hstep.
  destruct Hstep as [E|[_ E]]; [|congruence].
  rewrite Hp in E. symmetry in E.
  rewrite load_completed_eq in H.
  pose proof (restore_initialises cfg _ _ _ _ _ p H
                (to_read_existing w p Hm ltac:(eauto))
                (content_Some _ _ _ E)) as Hi.
  congruence.
Qed.

(** X6.  Reconciliation settles in one pass: run again on the state it
    left, it returns again, leaves every log as it is, and its completed
    set holds the same names. *)
Theorem reconciliation_idempotent (w w1 : World) (done : list string) :
  load_completed cfg date w = (w1, Ok done) ->
  exists w2 done2,
    load_completed cfg date w1 = (w2, Ok done2)
    /\ pickles w2 = pickles w1
    /\ (forall n, n ∈ done2 <-> n ∈ done).
Proof.
  intros H.
  assert (forall p, same_or_header cfg p (pickles w) (pickles w1)) as Hstep.
  { intros p. pose proof (load_completed_step w p) as S. now rewrite H in S. }
  assert (forall f, f ∈ to_read w1 ->
            Forall is_meta (tail (content (pickles w1) f))) as Hread.
  { intros f Hf. destruct (Hstep f) as [E|[_ E]].
    - unfold content. rewrite E.
      destruct (pickles w !! f) as [c|] eqn:Ec; [|constructor].
      rewrite load_completed_eq in H.
      pose proof (restore_readable cfg _ _ _ _ _ (to_read_NoDup w) H f
                    (to_read_existing w f (to_read_matches w1 f Hf)
                       ltac:(eauto))) as R.
      unfold content in R. now rewrite Ec in R.
    - unfold content. rewrite E. constructor. }
  destruct (restore_total cfg (to_read w1) [] w1 Hread) as (w2 & done2 & H2).
  rewrite <- load_completed_eq in H2.
  exists w2, done2. split; [exact H2|]. split.
  - apply map_eq. intros p.
    replace w2 with (load_completed cfg date w1).1 by now rewrite H2.
    rewrite load_completed_eq. apply restore_keeps.
    destruct (decide (p ∈ to_read w1)) as [Hin|Hout]; [right|now left].
    destruct (pickles w1 !! p) as [c|] eqn:Ec.
    + rewrite (content_Some _ _ _ Ec).
      exact (reconciled_logs_have_header w w1 done p c H
               (to_read_matches w1 p Hin) Ec).
    + (* a log to read that does not exist: only on a first run, and
         a first run that returned has made its logs *)
      exfalso.
      destruct (found w1) as [|g l] eqn:E1.
      * apply list_elem_of_fmap in Hin as (r & -> & Hr).
        destruct (Hstep (history_log cfg date r)) as [E|[_ E]]; [|congruence].
        rewrite Ec in E. symmetry in E.
        assert (found w = []) as E0.
        { destruct (found w) as [|g l] eqn:E0; [reflexivity|].
          assert (g ∈ found w) as Hg by (rewrite E0; left).
          apply glob_history_found in Hg as [Hm [c Hc]].
          assert (g ∈ found w1) as Hg1.
          { apply glob_history_found. split; [assumption|].
            destruct (Hstep g) as [E'|[_ E']]; rewrite E'; eauto. }
          rewrite E1 in Hg1. inversion Hg1. }
        rewrite load_completed_eq, E0 in H.
        assert (pickles w1 !! history_log cfg date r = Some [PConfig cfg]) as Hi.
        { apply (restore_initialises cfg _ _ _ _ _ _ H).
          - apply list_elem_of_fmap. eauto.
          - unfold content. now rewrite E. }
        congruence.
      * rewrite <- E1 in Hin. apply glob_history_found in Hin as [_ [c Hc]].
        congruence.
  - intros n.
    rewrite (load_completed_names cfg date w1 w2 done2 n H2).
    rewrite (load_completed_names cfg date w w1 done n H).
    split; intros (p & hdr & recs & Hm & Hp & Hn); exists p, hdr, recs;
      (split; [assumption|]); (split; [|assumption]).
    + destruct (Hstep p) as [E|[_ E]]; [congruence|].
      rewrite E in Hp. injection Hp as _ <-. inversion Hn.
    + destruct (Hstep p) as [E|[Z _]]; [congruence|].
      rewrite (content_Some _ _ _ Hp) in Z. discriminate.
Qed.

End Idempotence.

Lemma reconciliation_idempotent_witness :
  exists w2 done2,
    load_completed (Example.cfg 0 2) "D"
      (load_completed (Example.cfg 0 2) "D" Example.fresh).1 = (w2, Ok done2)
    /\ pickles w2 = pickles (load_completed (Example.cfg 0 2) "D" Example.fresh).1
    /\ (forall n, n ∈ done2 <-> n ∈ []).
Proof.
  apply (reconciliation_idempotent (Example.cfg 0 2) "D" Example.fresh).
  vm_compute. reflexivity.
Defined.

(* ------------------------------------------------------------------ *)
(** ** What any run leaves behind *)

Lemma fnames_cons_meta (m : Meta) (recs : list Pickled) :
  fnames (PMeta m :: recs) = fname m :: fnames recs.
Proof. reflexivity. Qed.

Lemma fnames_metas (done : list (DirEntry * Meta)) :
  fnames ((fun x => PMeta x.2) <$> done) = (fun x => fname x.2) <$> done.
Proof.
  induction done as [|[F m] done IH]; [reflexivity|].
  rewrite !fmap_cons, fnames_cons_meta, IH. reflexivity.
Qed.

Lemma processed_prefix_ok (step : DirEntry -> result Meta)
    (FILES : list DirEntry) (F : DirEntry) (m : Meta) :
  (F, m) ∈ processed_prefix step FILES -> F ∈ FILES /\ step F = Ok m.
Proof.
  induction FILES as [|G rest IH]; simpl; intros H; [inversion H|].
  destruct (step G) as [m'|e] eqn:E; [|inversion H].
  apply elem_of_cons in H as [[= -> ->]|H].
  - split; [left|assumption].
  - destruct (IH H). split; [now right|assumption].
Qed.

Lemma processed_prefix_length (step : DirEntry -> result Meta)
    (FILES : list DirEntry) :
  length (processed_prefix step FILES) <= length FILES.
Proof.
  induction FILES as [|G rest IH]; simpl; [lia|].
  destruct (step G); simpl; lia.
Qed.

Section LoopState.

Variable Filterbank_process :
  string -> string -> string -> string -> string -> CfgManager -> result Meta.
Variables (cfg : CfgManager) (date rfi st metas_file filelist : string).

Local Abbreviation loop := (process_files Filterbank_process cfg date rfi st
                              metas_file filelist).
Local Abbreviation step :=
  (fun FILE => Filterbank_process (name FILE) (path FILE) date rfi st cfg).

(** The two files after the loop has run over a list that is not empty,
    whether it went through or stopped on a failure. *)
Lemma loop_state (FILE : DirEntry) (rest : list DirEntry) (w : World) :
  pickles (loop (FILE :: rest) w).1
  = <[metas_file := content (pickles w) metas_file
                    ++ ((fun x => PMeta x.2)
                        <$> processed_prefix step (FILE :: rest))]> (pickles w)
  /\ texts (loop (FILE :: rest) w).1
     = <[filelist := content (texts w) filelist
                     ++ ((fun x => name x.1)
                         <$> processed_prefix step (FILE :: rest))]> (texts w).
Proof.
  revert FILE w. induction rest as [|G rest IH]; intros FILE w.
  - simpl processed_prefix.
    destruct (step FILE) as [m|e] eqn:E.
    + rewrite (loop_cons_ok _ _ _ _ _ _ _ FILE [] m w E). simpl. auto.
    + rewrite (loop_cons_fail _ _ _ _ _ _ _ FILE [] e w E). simpl.
      now rewrite !app_nil_r.
  - change (processed_prefix step (FILE :: G :: rest))
      with (match step FILE with
            | Ok m => (FILE, m) :: processed_prefix step (G :: rest)
            | Raise _ => []
            end).
    destruct (step FILE) as [m|e] eqn:E.
    + rewrite (loop_cons_ok _ _ _ _ _ _ _ FILE (G :: rest) m w E).
      destruct (IH G (after_item metas_file filelist FILE m w)) as [-> ->].
      simpl pickles. simpl texts.
      rewrite !content_insert, !insert_insert_eq, <- !app_assoc. auto.
    + rewrite (loop_cons_fail _ _ _ _ _ _ _ FILE (G :: rest) e w E). simpl.
      now rewrite !app_nil_r.
Qed.

Lemma loop_contents (FILES : list DirEntry) (w : World) :
  content (pickles (loop FILES w).1) metas_file
  = content (pickles w) metas_file
    ++ ((fun x => PMeta x.2) <$> processed_prefix step FILES)
  /\ content (texts (loop FILES w).1) filelist
     = content (texts w) filelist
       ++ ((fun x => name x.1) <$> processed_prefix step FILES).
Proof.
  destruct FILES as [|FILE rest]; [simpl; now rewrite !app_nil_r|].
  destruct (loop_state FILE rest w) as [-> ->].
  now rewrite !content_insert.
Qed.


End LoopState.

Lemma restore_texts (cfg : CfgManager) (files : list string) (acc : list string)
    (w : World) :
  texts (restore cfg files acc w).1 = texts w.
Proof.
  revert acc w. induction files as [|file files IH]; intros acc w; [reflexivity|].
  simpl. unfold bind. rewrite restore_one_eq.
  destruct (content (pickles w) file) as [|hdr rest]; simpl.
  - now rewrite IH.
  - destruct (append_fnames rest acc); [now rewrite IH|reflexivity].
Qed.

Lemma load_completed_texts (cfg : CfgManager) (date : string) (w : World) :
  texts (load_completed cfg date w).1 = texts w.
Proof. rewrite load_completed_eq. apply restore_texts. Qed.

Lemma same_or_header_fnames (cfg : CfgManager) (p : string)
    (fs fs' : gmap string (list Pickled)) :
  same_or_header cfg p fs fs' ->
  fnames (content fs' p) = fnames (content fs p).
Proof.
  unfold content. intros [->|[Z ->]]; [reflexivity|].
  unfold content in Z. now rewrite Z.
Qed.

Section AnyRun.

Variable scandir : string -> list DirEntry.
Variable Filterbank_process :
  string -> string -> string -> string -> string -> CfgManager -> result Meta.
Variable timer : nat -> Z.
Variables (cfg : CfgManager) (date : string).

Local Abbreviation date_path := (os_path_join (store_path cfg) date).
Local Abbreviation beam_rfi_path := (os_path_join (rfi_path cfg) date).
Local Abbreviation beam_state_path := (os_path_join (state_path cfg) date).
Local Abbreviation own_log := (history_log cfg date (RANK cfg)).
Local Abbreviation filelist := (os_path_join beam_state_path "filelist").
Local Abbreviation step :=
  (fun FILE => Filterbank_process (name FILE) (path FILE) date beam_rfi_path
                 beam_state_path cfg).
Local Abbreviation run := (call scandir Filterbank_process timer cfg date).

(** The logs and text files at the end of [__call__], by cases on how far
    it got: [None] when the loop over the files was not reached. *)
Lemma call_files (w : World) :
  exists (w1 : World) (looped : option (list DirEntry)),
    same_or_header cfg own_log (pickles w) (pickles w1)
    /\ texts w1 = texts w
    /\ match looped with
       | None => pickles (run w).1 = pickles w1 /\ texts (run w).1 = texts w1
       | Some FILES =>
           (exists done, load_completed cfg date (started cfg date w)
                         = (w1, Ok done))
           /\ pickles (run w).1
              = pickles (process_files Filterbank_process cfg date beam_rfi_path
                           beam_state_path own_log filelist FILES w1).1
           /\ texts (run w).1
              = texts (process_files Filterbank_process cfg date beam_rfi_path
                         beam_state_path own_log filelist FILES w1).1
       end.
Proof.
  rewrite call_eq.
  destruct (raw_or_fil scandir date_path) as [EXT|].
  - pose proof (load_completed_step cfg date (started cfg date w) own_log) as S.
    pose proof (load_completed_texts cfg date (started cfg date w)) as T.
    destruct (load_completed cfg date (started cfg date w)) as [w1 [done|e]];
      simpl in S, T.
    + destruct (NRANKS cfg =? 0)%nat.
      * exists w1, None. auto.
      * exists w1,
          (Some (rank_files
                   (remaining (filter_by_ext scandir date_path EXT) done)
                   (RANK cfg) (NRANKS cfg))).
        split; [exact S|]. split; [exact T|]. split; [eauto|].
        destruct (process_files _ _ _ _ _ _ _ _ w1) as [w2 [[]|e]]; auto.
    + exists w1, None. auto.
  - exists w, None. split; [now left|]. auto.
Qed.

(** X7.  Whatever happens in a run of [__call__], the file list and the
    rank's history log move together: there is a list of files, each with
    the metadata the per-file step returned for it, such that the run has
    added to the file list exactly the names of these files, in order, and
    to the completion records of the rank's log exactly their metadata, in
    the same order.  No line is written without its record and no record
    without its line. *)
Theorem ledger_in_step (w : World) :
  exists done : list (DirEntry * Meta),
    content (texts (run w).1) filelist
    = content (texts w) filelist ++ ((fun x => name x.1) <$> done)
    /\ fnames (content (pickles (run w).1) own_log)
       = fnames (content (pickles w) own_log) ++ ((fun x => fname x.2) <$> done)
    /\ (forall F m, (F, m) ∈ done -> step F = Ok m).
Proof.
  destruct (call_files w) as (w1 & looped & S & T & H).
  apply same_or_header_fnames in S.
  destruct looped as [FILES|].
  - destruct H as (_ & -> & ->).
    destruct (loop_contents Filterbank_process cfg date beam_rfi_path
                beam_state_path own_log filelist FILES w1) as [-> ->].
    exists (processed_prefix step FILES).
    rewrite T, fnames_app, fnames_metas, S.
    split; [reflexivity|]. split; [reflexivity|].
    intros F m HF. now apply processed_prefix_ok in HF as [_ ?].
  - destruct H as [-> ->]. exists []. simpl.
    rewrite !app_nil_r, T, S. split; [reflexivity|]. split; [reflexivity|].
    intros F m HF. inversion HF.
Qed.



End AnyRun.



(** X10.  When the per-file step raises on a file of the rank's slice,
    [__call__] ends with that exception; the rank's log has gained the
    metadata of the files of the slice that come before the failing one,
    in order, and nothing else; and after reconciliation the run has done
    the four steps for each of those files, has started the per-file step
    on the failing file, and has done nothing for the files after it. *)
Theorem failure_ends_the_run (scandir : string -> list DirEntry)
    (Filterbank_process :
       string -> string -> string -> string -> string -> CfgManager -> result Meta)
    (timer : nat -> Z) (cfg : CfgManager) (date : string)
    (w w1 : World) (EXT : string) (done : list string)
    (meta_of : DirEntry -> Meta) (before : list DirEntry) (FILE : DirEntry)
    (rest : list DirEntry) (e : exn) :
  raw_or_fil scandir (os_path_join (store_path cfg) date) = Some EXT ->
  load_completed cfg date (started cfg date w) = (w1, Ok done) ->
  NRANKS cfg <> 0 ->
  rank_files
    (remaining (filter_by_ext scandir (os_path_join (store_path cfg) date) EXT) done)
    (RANK cfg) (NRANKS cfg) = before ++ FILE :: rest ->
  (forall F, F ∈ before ->
     Filterbank_process (name F) (path F) date (os_path_join (rfi_path cfg) date)
       (os_path_join (state_path cfg) date) cfg = Ok (meta_of F)) ->
  Filterbank_process (name FILE) (path FILE) date (os_path_join (rfi_path cfg) date)
    (os_path_join (state_path cfg) date) cfg = Raise e ->
  exists w',
    call scandir Filterbank_process timer cfg date w = (w', Raise e)
    /\ content (pickles w') (history_log cfg date (RANK cfg))
       = content (pickles w1) (history_log cfg date (RANK cfg))
         ++ ((fun F => PMeta (meta_of F)) <$> before)
    /\ trace w'
       = trace w1
         ++ loop_events (history_log cfg date (RANK cfg))
              (os_path_join (os_path_join (state_path cfg) date) "filelist")
              meta_of before
              (length (content (texts w1)
                         (os_path_join (os_path_join (state_path cfg) date)
                            "filelist")))
         ++ [EvProcess (name FILE) (path FILE)].
Proof. apply failure_propagates. Qed.

Lemma failure_ends_the_run_witness :
  NRANKS (Example.cfg 0 1) <> 0
  /\ exists w',
       call Example.dir (Example.failing_on "c.fil") Example.clock
         (Example.cfg 0 1) "D" Example.fresh
       = (w', Raise (ExternalError "c.fil"))
       /\ content (pickles w') Example.h0
          = [PConfig (Example.cfg 0 1); PMeta (Example.meta "a.fil");
             PMeta (Example.meta "b.fil")].
Proof.
  split; [discriminate|].
  destruct (failure_ends_the_run Example.dir (Example.failing_on "c.fil")
              Example.clock (Example.cfg 0 1) "D" Example.fresh
              (load_completed (Example.cfg 0 1) "D"
                 (started (Example.cfg 0 1) "D" Example.fresh)).1
              ".fil" [] (fun F => Example.meta (name F))
              [Example.entry "a.fil"; Example.entry "b.fil"]
              (Example.entry "c.fil")
              [Example.entry "d.fil"; Example.entry "e.fil"]
              (ExternalError "c.fil"))
    as (w' & Hcall & Hlog & _).
  - vm_compute. reflexivity.
  - vm_compute. reflexivity.
  - discriminate.
  - vm_compute. reflexivity.
  - intros F HF.
    apply elem_of_cons in HF as [->|HF]; [reflexivity|].
    apply elem_of_cons in HF as [->|HF]; [reflexivity|]. inversion HF.
  - reflexivity.
  - exists w'. split; [exact Hcall|].
    etransitivity; [exact Hlog|]. vm_compute. reflexivity.
Defined.

(* ------------------------------------------------------------------ *)
(** ** rfi_filter_filtool.py: ranks and pools *)

Lemma rank_files_empty_iff {A : Type} (FILES : list A) (rank nranks : nat) :
  1 <= nranks ->
  rank_files FILES rank nranks = []
  <-> length FILES <= rank * n_files_per_rank (length FILES) nranks.
Proof.
  intros H.
  destruct (n_files_per_rank_bounds (length FILES) nranks H) as [Hup _].
  rewrite <- length_zero_iff_nil, rank_files_length_eq by assumption. nia.
Qed.

(** X11.  A rank whose slice of the filterbank files is empty, that is a
    rank with [len <= rank * per], which the last rank is whenever there
    are fewer files than ranks, never gets a pool when no number of
    workers is given: [main] ends with [ZeroDivisionError] at
    line 112 when no number of threads is given either (with [TypeError]
    when the number of CPUs is unknown), and with the [ValueError] of
    [Pool(processes=0)] at line 115 when one is. *)
Theorem idle_rank_fails {A : Type} (all_fil_files : list A) (rank nranks : nat)
    (workers threads cpu_count : option Z) :
  1 <= nranks ->
  length all_fil_files
  <= rank * n_files_per_rank (length all_fil_files) nranks ->
  RfiFilter.given workers = None ->
  RfiFilter.main_plan all_fil_files rank nranks workers threads cpu_count
  = RfiFilter.Fails
      match RfiFilter.given threads, cpu_count with
      | Some _, _ => RfiFilter.PoolSize
      | None, None => RfiFilter.NoneOperand
      | None, Some _ => RfiFilter.ZeroDivision
      end.
Proof.
  intros H Hidle Hw.
  apply (rank_files_empty_iff all_fil_files rank nranks H) in Hidle.
  unfold RfiFilter.main_plan, RfiFilter.plan_pool.
  destruct (Nat.eqb_spec nranks 0) as [|_]; [lia|].
  rewrite Hidle, Hw. simpl.
  destruct (RfiFilter.given threads); [reflexivity|].
  now destruct cpu_count.
Qed.

Lemma idle_rank_fails_witness :
  1 <= 3
  /\ length ["BM0.down.fil"] <= 2 * n_files_per_rank (length ["BM0.down.fil"]) 3
  /\ RfiFilter.main_plan ["BM0.down.fil"] 2 3 None None (Some 8%Z)
     = RfiFilter.Fails RfiFilter.ZeroDivision.
Proof.
  split; [lia|]. split; [vm_compute; lia|].
  apply (idle_rank_fails ["BM0.down.fil"] 2 3 None None (Some 8%Z)).
  - lia.
  - vm_compute. lia.
  - reflexivity.
Defined.

(** X12.  A rank whose slice is not empty and that is given neither a
    number of workers nor a number of threads gets its files, one process
    per file, and per process the number of CPUs divided by the number of
    files, rounded down: the threads of all processes together never
    exceed the CPUs, and a rank with more files than CPUs runs each file
    with zero threads. *)
Theorem default_pool_within_cpus {A : Type} (all_fil_files : list A)
    (rank nranks : nat) (cpus : Z) :
  1 <= nranks ->
  rank * n_files_per_rank (length all_fil_files) nranks < length all_fil_files ->
  (0 <= cpus)%Z ->
  exists nthreads,
    RfiFilter.main_plan all_fil_files rank nranks None None (Some cpus)
    = RfiFilter.Done (rank_files all_fil_files rank nranks,
                      Z.of_nat (length (rank_files all_fil_files rank nranks)),
                      nthreads)
    /\ (0 <= nthreads)%Z
    /\ (Z.of_nat (length (rank_files all_fil_files rank nranks)) * nthreads
        <= cpus)%Z
    /\ (cpus < Z.of_nat (length (rank_files all_fil_files rank nranks))
           -> nthreads = 0)%Z.
Proof.
  intros H Hbusy Hc.
  assert (rank_files all_fil_files rank nranks <> []) as Hne.
  { intros E. apply (rank_files_empty_iff all_fil_files rank nranks H) in E. lia. }
  assert (1 <= Z.of_nat (length (rank_files all_fil_files rank nranks)))%Z as Hlen.
  { destruct (rank_files all_fil_files rank nranks); [contradiction|simpl; lia]. }
  unfold RfiFilter.main_plan, RfiFilter.plan_pool.
  destruct (Nat.eqb_spec nranks 0) as [|_]; [lia|]. simpl.
  set (k := Z.of_nat (length (rank_files all_fil_files rank nranks))) in *.
  destruct (Z.eqb_spec k 0) as [|_]; [lia|].
  destruct (Z.ltb_spec k 1) as [|_]; [lia|].
  exists (cpus / k)%Z. split; [reflexivity|].
  split; [apply Z.div_pos; lia|].
  split; [apply Z.mul_div_le; lia|].
  intros Hlt. apply Z.div_small. lia.
Qed.

Lemma default_pool_within_cpus_witness :
  1 <= 2 /\ (0 <= 8)%Z
  /\ exists nthreads,
       RfiFilter.main_plan (seq 0 20) 0 2 None None (Some 8%Z)
       = RfiFilter.Done (rank_files (seq 0 20) 0 2,
                         Z.of_nat (length (rank_files (seq 0 20) 0 2)), nthreads)
       /\ ((8 < Z.of_nat (length (rank_files (seq 0 20) 0 2)))%Z
           -> nthreads = 0%Z).
Proof.
  split; [lia|]. split; [lia|].
  destruct (default_pool_within_cpus (seq 0 20) 0 2 8%Z) as (nt & E & _ & _ & Z0).
  - lia.
  - vm_compute. lia.
  - lia.
  - exists nt. split; [exact E|exact Z0].
Defined.

(* ------------------------------------------------------------------ *)
(** ** cand_filter.py: the number in the name of a candidate file *)

Lemma chars_app (a b : string) :
  list_ascii_of_string (a +:+ b) = list_ascii_of_string a ++ list_ascii_of_string b.
Proof. induction a as [|c a IH]; simpl; [reflexivity|now rewrite IH]. Qed.

Lemma take_while_all {A} (f : A -> bool) (l1 l2 : list A) :
  Forall (fun x => f x = true) l1 ->
  match l2 with [] => True | x :: _ => f x = false end ->
  CandFilter.take_while f (l1 ++ l2) = l1.
Proof.
  intros H1 H2. induction H1 as [|x l1 Hx _ IH]; simpl.
  - destruct l2 as [|y l2]; [reflexivity|]. simpl. now rewrite H2.
  - now rewrite Hx, IH.
Qed.

Lemma take_while_digits {A} (f : A -> bool) (l : list A) :
  Forall (fun x => f x = true) (CandFilter.take_while f l).
Proof.
  induction l as [|x l IH]; simpl; [constructor|].
  destruct (f x) eqn:E; constructor; assumption.
Qed.

Lemma take_while_prefix {A} (f : A -> bool) (l : list A) :
  exists l', l = CandFilter.take_while f l ++ l'.
Proof.
  induction l as [|x l [l' IH]]; simpl; [now exists []|].
  destruct (f x); [exists l'; simpl; congruence|now exists (x :: l)].
Qed.

Lemma int_of_digits_from (s : list ascii) (acc : nat) :
  fold_left (fun acc c => 10 * acc + (nat_of_ascii c - 48)) s acc
  = acc * 10 ^ length s + CandFilter.int_of_digits s.
Proof.
  unfold CandFilter.int_of_digits. revert acc.
  induction s as [|c s IH]; intros acc; cbn [fold_left length].
  - simpl. lia.
  - rewrite (IH (10 * acc + _)), (IH (10 * 0 + _)), Nat.pow_succ_r'. ring.
Qed.

Lemma int_of_digits_cons (c : ascii) (s : list ascii) :
  CandFilter.int_of_digits (c :: s)
  = (nat_of_ascii c - 48) * 10 ^ length s + CandFilter.int_of_digits s.
Proof.
  unfold CandFilter.int_of_digits at 1. cbn [fold_left].
  rewrite int_of_digits_from. ring.
Qed.

Lemma int_of_digits_app (s t : list ascii) :
  CandFilter.int_of_digits (s ++ t)
  = CandFilter.int_of_digits s * 10 ^ length t + CandFilter.int_of_digits t.
Proof.
  unfold CandFilter.int_of_digits at 1.
  rewrite fold_left_app. fold (CandFilter.int_of_digits s).
  apply int_of_digits_from.
Qed.

(** Leading zeros, stripped or not, do not change the number read. *)
Lemma int_of_lstrip (s : list ascii) :
  CandFilter.int_of_digits (CandFilter.lstrip_zeros_or_zero s)
  = CandFilter.int_of_digits s.
Proof.
  unfold CandFilter.lstrip_zeros_or_zero.
  induction s as [|c s IH]; [reflexivity|]. simpl CandFilter.drop_while.
  unfold CandFilter.is_zero at 1.
  destruct (Ascii.eqb_spec c "0") as [->|Hc]; [|reflexivity].
  rewrite IH, int_of_digits_cons. reflexivity.
Qed.

Lemma int_of_uint_digits (d : Decimal.uint) (acc : nat) :
  fold_left (fun acc c => 10 * acc + (nat_of_ascii c - 48))
    (list_ascii_of_string (NilEmpty.string_of_uint d)) acc
  = Nat.of_uint_acc d acc.
Proof.
  revert acc. induction d; intros acc; simpl; [reflexivity|..];
    rewrite IHd; f_equal; rewrite Nat.tail_mul_spec; simpl; lia.
Qed.

Lemma int_of_str_of_nat (n : nat) :
  CandFilter.int_of_digits (list_ascii_of_string (str_of_nat n)) = n.
Proof.
  unfold CandFilter.int_of_digits, str_of_nat.
  rewrite int_of_uint_digits. apply DecimalNat.Unsigned.of_to.
Qed.

Lemma digits_of_uint (d : Decimal.uint) :
  Forall (fun c => CandFilter.is_digit c = true)
    (list_ascii_of_string (NilEmpty.string_of_uint d)).
Proof. induction d; simpl; constructor; auto. Qed.

Lemma str_of_nat_not_empty (n : nat) : list_ascii_of_string (str_of_nat n) <> [].
Proof.
  unfold str_of_nat. intros E.
  assert (Nat.to_uint n = Decimal.Nil) as E'.
  { destruct (Nat.to_uint n); simpl in E; congruence. }
  destruct n as [|n]; [discriminate|].
  pose proof (DecimalNat.Unsigned.of_to (S n)) as R.
  rewrite E' in R. discriminate.
Qed.

Lemma strip_head_spec (pre l rest : list ascii) :
  CandFilter.strip_head pre l = Some rest <-> l = pre ++ rest.
Proof.
  revert l. induction pre as [|a pre IH]; intros l; simpl.
  - split; congruence.
  - destruct l as [|b l]; [split; discriminate|].
    destruct (Ascii.eqb_spec a b) as [->|Hne].
    + rewrite IH. split; congruence.
    + split; [discriminate|congruence].
Qed.

Lemma before_h5_spec (l rest : list ascii) :
  CandFilter.before_h5 l = Some rest
  <-> l = ["010"; "5"; "h"; "."]%char ++ rest \/ l = ["5"; "h"; "."]%char ++ rest.
Proof.
  unfold CandFilter.before_h5.
  destruct (CandFilter.strip_head ["010"; "5"; "h"; "."]%char l) as [r|] eqn:E.
  - apply strip_head_spec in E. subst l. split.
    + intros [= ->]. now left.
    + intros [H|H]; [|discriminate]. apply app_inv_head in H. congruence.
  - rewrite strip_head_spec. split; [now right|].
    intros [H|H]; [|exact H].
    apply strip_head_spec in H. congruence.
Qed.

Lemma chars_of_chars (l : list ascii) :
  list_ascii_of_string (string_of_list_ascii l) = l.
Proof. apply list_ascii_of_string_of_list_ascii. Qed.

Lemma string_of_chars_inj (a b : string) :
  list_ascii_of_string a = list_ascii_of_string b -> a = b.
Proof.
  intros H. rewrite <- (string_of_list_ascii_of_string a),
    <- (string_of_list_ascii_of_string b). now rewrite H.
Qed.

Lemma int_of_zeros (k : nat) :
  CandFilter.int_of_digits (replicate k "0"%char) = 0.
Proof.
  induction k as [|k IH]; [reflexivity|].
  simpl replicate. rewrite int_of_digits_cons, IH. reflexivity.
Qed.

(** X13.  Round trip of the candidate number: for a name made of a prefix
    that does not end in a digit, any number of zeros, the decimal
    writing of [n] and the extension [.h5], the number read back is [n]
    (so [riptide_cand_0001.h5] gives 1). *)
Theorem extract_cand_number_round_trip (pre : string) (zeros n : nat) :
  (forall body c, pre = body +:+ String c "" -> CandFilter.is_digit c = false) ->
  CandFilter.extract_cand_number
    (pre +:+ string_of_list_ascii (replicate zeros "0"%char)
         +:+ str_of_nat n +:+ ".h5")
  = Some n.
Proof.
  intros Hpre. unfold CandFilter.extract_cand_number.
  rewrite !chars_app, chars_of_chars.
  set (P := list_ascii_of_string pre).
  set (Z := replicate zeros "0"%char).
  set (S := list_ascii_of_string (str_of_nat n)).
  change (list_ascii_of_string ".h5") with ["."; "h"; "5"]%char.
  rewrite !rev_app_distr. simpl rev at 1. rewrite <- !app_assoc. simpl app at 1.
  assert (CandFilter.before_h5
            ("5"%char :: "h"%char :: "."%char :: rev S ++ rev Z ++ rev P)
          = Some (rev S ++ rev Z ++ rev P)) as ->.
  { apply before_h5_spec. now right. }
  assert (Forall (fun c => CandFilter.is_digit c = true) (Z ++ S)) as Hdig.
  { apply Forall_app. split.
    - subst Z. apply Forall_replicate. reflexivity.
    - apply digits_of_uint. }
  rewrite app_assoc, <- rev_app_distr.
  rewrite take_while_all.
  - rewrite rev_involutive.
    destruct (Z ++ S) as [|c s] eqn:E.
    + apply app_eq_nil in E as [_ E]. now apply str_of_nat_not_empty in E.
    + rewrite <- E, int_of_lstrip, int_of_digits_app. subst Z S.
      now rewrite int_of_zeros, int_of_str_of_nat.
  - apply Forall_forall. intros c Hc.
    apply list_elem_of_In in Hc. apply in_rev in Hc. apply list_elem_of_In in Hc.
    rewrite Forall_forall in Hdig. now apply Hdig.
  - destruct (rev P) as [|c r] eqn:E; [exact I|].
    apply (Hpre (string_of_list_ascii (rev r))).
    apply string_of_chars_inj. rewrite chars_app, chars_of_chars. fold P.
    rewrite <- (rev_involutive P), E. reflexivity.
Qed.

Lemma extract_cand_number_round_trip_witness :
  (forall body c, "riptide_cand_" = body +:+ String c "" ->
                  CandFilter.is_digit c = false)
  /\ CandFilter.extract_cand_number "riptide_cand_0001.h5" = Some 1.
Proof.
  assert (forall body c, "riptide_cand_" = body +:+ String c "" ->
                         CandFilter.is_digit c = false) as H.
  { intros body c E. apply (f_equal list_ascii_of_string) in E.
    rewrite chars_app in E. apply (f_equal (@rev ascii)) in E.
    rewrite rev_app_distr in E. simpl in E. now injection E as <- _. }
  split; [exact H|].
  exact (extract_cand_number_round_trip "riptide_cand_" 3 1 H).
Defined.

Lemma extract_cand_number_from_rev (fname : string) (rest : list ascii) :
  CandFilter.before_h5 (rev (list_ascii_of_string fname)) = Some rest ->
  is_Some (CandFilter.extract_cand_number fname)
  <-> exists c rest', rest = c :: rest' /\ CandFilter.is_digit c = true.
Proof.
  intros E. unfold CandFilter.extract_cand_number. rewrite E.
  destruct rest as [|c rest']; simpl.
  - split; [intros [v Hv]; discriminate|intros (c & r & H & _); discriminate].
  - destruct (CandFilter.is_digit c) eqn:Hc; simpl.
    + split; [eauto|]. intros _.
      destruct (rev (CandFilter.take_while CandFilter.is_digit rest') ++ [c])
        eqn:E'; [|eauto].
      apply app_eq_nil in E' as [_ ?]. discriminate.
    + split; [intros [v Hv]; discriminate|].
      intros (c' & r & [= <- <-] & H). congruence.
Qed.

(** X14.  [extract_cand_number] gives a number exactly for the names in
    which a digit stands right before a final [.h5], the name ending
    there or with one newline after it; for every other name, one without
    the extension or with something other than a digit before it, the
    answer is [None]. *)
Theorem extract_cand_number_matches (fname : string) :
  is_Some (CandFilter.extract_cand_number fname)
  <-> exists body c,
        CandFilter.is_digit c = true
        /\ (fname = body +:+ String c ".h5"
            \/ fname = body +:+ String c (".h5" +:+ String "010" "")).
Proof.
  split.
  - intros H.
    destruct (CandFilter.before_h5 (rev (list_ascii_of_string fname)))
      as [rest|] eqn:E.
    + apply (extract_cand_number_from_rev fname rest E) in H.
      destruct H as (c & rest' & Hr & Hc). subst rest.
      exists (string_of_list_ascii (rev rest')), c. split; [exact Hc|].
      apply before_h5_spec in E.
      destruct E as [E|E]; [right|left]; apply string_of_chars_inj;
        rewrite chars_app, chars_of_chars;
        rewrite <- (rev_involutive (list_ascii_of_string fname)), E;
        simpl; now rewrite <- !app_assoc.
    + unfold CandFilter.extract_cand_number in H. rewrite E in H.
      destruct H; discriminate.
  - intros (body & c & Hc & [->| ->]).
    + apply (extract_cand_number_from_rev _ (c :: rev (list_ascii_of_string body))).
      * apply before_h5_spec. right. rewrite chars_app, rev_app_distr. reflexivity.
      * eauto.
    + apply (extract_cand_number_from_rev _ (c :: rev (list_ascii_of_string body))).
      * apply before_h5_spec. left. rewrite chars_app, rev_app_distr. reflexivity.
      * eauto.
Qed.

Lemma extract_cand_number_matches_witness :
  CandFilter.is_digit "7" = true
  /\ is_Some (CandFilter.extract_cand_number ("cand_" +:+ String "7" ".h5")).
Proof.
  split; [reflexivity|].
  apply (extract_cand_number_matches ("cand_" +:+ String "7" ".h5")).
  exists "cand_", "7"%char. split; [reflexivity|]. now left.
Defined.

(* ------------------------------------------------------------------ *)
(** ** cand_filter.py: harmonic groups *)

Lemma flag_insert (used : list bool) (j k : nat) :
  j < length used ->
  CandFilter.flag (<[j := true]> used) k = true
  <-> k = j \/ CandFilter.flag used k = true.
Proof.
  intros Hj. unfold CandFilter.flag. rewrite list_lookup_insert.
  destruct (decide (j = k /\ j < length used)) as [[-> _]|Hn]; simpl.
  - tauto.
  - split; [tauto|]. intros [->|H]; [|exact H]. exfalso. apply Hn. auto.
Qed.

Lemma flag_replicate (n k : nat) : CandFilter.flag (replicate n false) k = false.
Proof.
  unfold CandFilter.flag.
  destruct (replicate n false !! k) as [b|] eqn:E; [|reflexivity].
  apply lookup_replicate in E as [-> _]. reflexivity.
Qed.

Section Groups.

Context {Row : Type}.
Variable dm_far : Row -> Row -> bool.
Variable is_harmonic : Row -> Row -> nat -> bool.
Variable harmonic_max : nat.
Variable df : list Row.

Local Abbreviation L := (CandFilter.linked dm_far is_harmonic harmonic_max df).
Local Abbreviation absorb := (CandFilter.absorb dm_far is_harmonic harmonic_max df).
Local Abbreviation group_from :=
  (CandFilter.group_from dm_far is_harmonic harmonic_max df).
Local Abbreviation flag := CandFilter.flag.

(** What the loop over [j] does to the flags and to the group. *)
Lemma absorb_post (i : nat) (js : list nat) (used : list bool) (group : list nat) :
  (forall j, j ∈ js -> j < length used) ->
  length (absorb i js used group).1 = length used
  /\ exists added,
       (absorb i js used group).2 = group ++ added
       /\ (forall j, j ∈ added -> j ∈ js /\ flag used j = false /\ L i j = true)
       /\ NoDup added
       /\ (forall k, flag (absorb i js used group).1 k = true
                     <-> flag used k = true \/ k ∈ added)
       /\ (forall j, j ∈ js -> flag (absorb i js used group).1 j = false ->
                     L i j = false).
Proof.
  revert used group. induction js as [|j js IH]; intros used group Hlt.
  - simpl. split; [reflexivity|]. exists []. rewrite app_nil_r.
    split; [reflexivity|]. split; [intros x Hx; inversion Hx|].
    split; [constructor|]. split.
    + intros k. split; [tauto|]. intros [H|H]; [exact H|inversion H].
    + intros x Hx. inversion Hx.
  - assert (j < length used) as Hj by (apply Hlt; left).
    assert (forall x, x ∈ js -> x < length used) as Hlt'
      by (intros x Hx; apply Hlt; now right).
    simpl. destruct (flag used j) eqn:Fj; [|destruct (L i j) eqn:Lj].
    + destruct (IH used group Hlt') as (Hlen & added & Hg & Hadd & Hnd & Hfl & Hno).
      split; [exact Hlen|]. exists added.
      split; [exact Hg|]. split; [|split; [exact Hnd|split; [exact Hfl|]]].
      * intros x Hx. destruct (Hadd x Hx) as (? & ? & ?).
        split; [now right|auto].
      * intros x Hx Hf. apply elem_of_cons in Hx as [->|Hx]; [|now apply Hno].
        assert (flag (absorb i js used group).1 j = true) as Ht
          by (apply Hfl; now left).
        congruence.
    + assert (forall x, x ∈ js -> x < length (<[j := true]> used)) as Hlt2
        by (intros x Hx; rewrite length_insert; now apply Hlt').
      destruct (IH (<[j := true]> used) (group ++ [j]) Hlt2)
        as (Hlen & added & Hg & Hadd & Hnd & Hfl & Hno).
      rewrite length_insert in Hlen.
      split; [exact Hlen|]. exists (j :: added).
      split; [rewrite Hg, <- app_assoc; reflexivity|].
      split; [|split; [|split]].
      * intros x Hx. apply elem_of_cons in Hx as [->|Hx].
        { split; [left|auto]. }
        destruct (Hadd x Hx) as (Hin & Hf & Hl).
        split; [now right|]. split; [|exact Hl].
        destruct (flag used x) eqn:Fx; [|reflexivity].
        assert (flag (<[j := true]> used) x = true) as Ht
          by (apply flag_insert; auto).
        congruence.
      * constructor; [|exact Hnd]. intros Hin.
        destruct (Hadd j Hin) as (_ & Hf & _).
        assert (flag (<[j := true]> used) j = true) as Ht
          by (apply flag_insert; auto).
        congruence.
      * intros k. rewrite Hfl, flag_insert by assumption.
        rewrite elem_of_cons. tauto.
      * intros x Hx Hf. apply elem_of_cons in Hx as [->|Hx]; [|now apply Hno].
        assert (flag (absorb i js (<[j := true]> used) (group ++ [j])).1 j = true)
          as Ht by (apply Hfl; left; apply flag_insert; auto).
        congruence.
    + destruct (IH used group Hlt') as (Hlen & added & Hg & Hadd & Hnd & Hfl & Hno).
      split; [exact Hlen|]. exists added.
      split; [exact Hg|]. split; [|split; [exact Hnd|split; [exact Hfl|]]].
      * intros x Hx. destruct (Hadd x Hx) as (? & ? & ?).
        split; [now right|auto].
      * intros x Hx Hf. apply elem_of_cons in Hx as [->|Hx]; [exact Lj|].
        now apply Hno.
Qed.

Lemma absorb_step (n i0 : nat) (used : list bool) :
  length used = n -> i0 < n ->
  length (absorb i0 (seq (S i0) (n - S i0)) (<[i0 := true]> used) [i0]).1 = n
  /\ exists added,
       (absorb i0 (seq (S i0) (n - S i0)) (<[i0 := true]> used) [i0]).2
       = i0 :: added
       /\ (forall j, j ∈ added ->
             i0 < j < n /\ flag used j = false /\ L i0 j = true)
       /\ NoDup added
       /\ (forall k,
             flag (absorb i0 (seq (S i0) (n - S i0)) (<[i0 := true]> used) [i0]).1 k
             = true
             <-> k = i0 \/ flag used k = true \/ k ∈ added)
       /\ (forall j, i0 < j < n ->
             flag (absorb i0 (seq (S i0) (n - S i0)) (<[i0 := true]> used) [i0]).1 j
             = false ->
             L i0 j = false).
Proof.
  intros Hlen Hi.
  destruct (absorb_post i0 (seq (S i0) (n - S i0)) (<[i0 := true]> used) [i0])
    as (Hl & added & Hg & Hadd & Hnd & Hfl & Hno).
  { intros j Hj. rewrite length_insert, Hlen. apply elem_of_seq in Hj. lia. }
  rewrite length_insert, Hlen in Hl.
  split; [exact Hl|]. exists added. split; [exact Hg|].
  split; [|split; [exact Hnd|split]].
  - intros j Hj. destruct (Hadd j Hj) as (Hin & Hf & Hlk).
    apply elem_of_seq in Hin. split; [lia|]. split; [|exact Hlk].
    destruct (flag used j) eqn:Fj; [|reflexivity].
    assert (flag (<[i0 := true]> used) j = true) as Ht
      by (apply flag_insert; [lia|auto]).
    congruence.
  - intros k. rewrite Hfl, flag_insert by lia. tauto.
  - intros j Hj. apply Hno. apply elem_of_seq. lia.
Qed.

(** The loop over [i] hands every position to exactly one group. *)
Lemma group_from_partition (k n i0 : nat) (used : list bool)
    (groups : list (list nat)) :
  i0 + k = n ->
  length used = n ->
  (forall x, flag used x = true <-> x ∈ concat groups) ->
  NoDup (concat groups) ->
  (forall x, x ∈ concat groups -> x < n) ->
  (forall x, x < i0 -> flag used x = true) ->
  NoDup (concat (group_from n (seq i0 k) used groups))
  /\ (forall x, x ∈ concat (group_from n (seq i0 k) used groups) <-> x < n).
Proof.
  revert i0 used groups.
  induction k as [|k IH]; intros i0 used groups Hn Hlen Hflag Hnd Hlt Hdone.
  - simpl. split; [exact Hnd|]. intros x. split; [apply Hlt|].
    intros Hx. apply Hflag, Hdone. lia.
  - simpl. destruct (flag used i0) eqn:F0.
    + apply IH; auto; try lia.
      intros x Hx. destruct (Nat.eq_dec x i0) as [->|]; [exact F0|].
      apply Hdone. lia.
    + destruct (absorb_step n i0 used Hlen ltac:(lia))
        as (Hl & added & Hg & Hadd & Hnda & Hfl & _).
      destruct (absorb i0 (seq (S i0) (n - S i0)) (<[i0 := true]> used) [i0])
        as [used' g]. simpl in Hl, Hg, Hfl. subst g.
      assert (forall x, x ∈ concat (groups ++ [i0 :: added])
                        <-> x ∈ concat groups \/ x = i0 \/ x ∈ added) as Hmem.
      { intros x. rewrite concat_app. simpl. rewrite app_nil_r.
        rewrite elem_of_app, elem_of_cons. tauto. }
      apply IH; try lia; try assumption.
      * intros x. rewrite Hfl, Hmem, Hflag. tauto.
      * rewrite concat_app. simpl. rewrite app_nil_r.
        apply NoDup_app. split; [exact Hnd|]. split.
        -- intros x Hx Hin. apply Hflag in Hx.
           apply elem_of_cons in Hin as [->|Hin]; [congruence|].
           destruct (Hadd x Hin) as (_ & Hf & _). congruence.
        -- constructor; [|exact Hnda]. intros Hin.
           destruct (Hadd i0 Hin) as (? & _). lia.
      * intros x Hx. apply Hmem in Hx as [Hx|[->|Hx]]; [now apply Hlt|lia|].
        destruct (Hadd x Hx) as (? & _). lia.
      * intros x Hx. apply Hfl.
        destruct (Nat.eq_dec x i0) as [->|]; [now left|].
        right. left. apply Hdone. lia.
Qed.

(** The members of a group are linked to its first position, and the
    first positions of two groups are not linked. *)
Lemma group_from_links (k n i0 : nat) (used : list bool)
    (groups : list (list nat)) :
  i0 + k = n ->
  length used = n ->
  (forall g, g ∈ groups ->
     exists i added, g = i :: added /\ i < i0
                     /\ forall j, j ∈ added -> i < j /\ L i j = true) ->
  (forall i added j, (i :: added) ∈ groups -> i < j < n ->
     flag used j = false -> L i j = false) ->
  (forall i1 a1 i2 a2, (i1 :: a1) ∈ groups -> (i2 :: a2) ∈ groups ->
     i1 < i2 -> L i1 i2 = false) ->
  (forall g, g ∈ group_from n (seq i0 k) used groups ->
     exists i added, g = i :: added
                     /\ forall j, j ∈ added -> i < j /\ L i j = true)
  /\ (forall i1 a1 i2 a2,
        (i1 :: a1) ∈ group_from n (seq i0 k) used groups ->
        (i2 :: a2) ∈ group_from n (seq i0 k) used groups ->
        i1 < i2 -> L i1 i2 = false).
Proof.
  revert i0 used groups.
  induction k as [|k IH]; intros i0 used groups Hn Hlen Hmem Hopen Hlead.
  - simpl. split; [|exact Hlead].
    intros g Hg. destruct (Hmem g Hg) as (i & added & -> & _ & H). eauto.
  - simpl. destruct (flag used i0) eqn:F0.
    + apply IH; auto; try lia.
      intros g Hg. destruct (Hmem g Hg) as (i & added & -> & Hi & H).
      exists i, added. split; [reflexivity|]. split; [lia|exact H].
    + destruct (absorb_step n i0 used Hlen ltac:(lia))
        as (Hl & added & Hg & Hadd & _ & Hfl & Hno).
      destruct (absorb i0 (seq (S i0) (n - S i0)) (<[i0 := true]> used) [i0])
        as [used' g]. simpl in Hl, Hg, Hfl, Hno. subst g.
      apply IH; try lia; try assumption.
      * intros g Hg. apply elem_of_app in Hg as [Hg|Hg].
        -- destruct (Hmem g Hg) as (i & a & -> & Hi & H).
           exists i, a. split; [reflexivity|]. split; [lia|exact H].
        -- apply list_elem_of_singleton in Hg as ->.
           exists i0, added. split; [reflexivity|]. split; [lia|].
           intros j Hj. destruct (Hadd j Hj) as (? & _ & ?). split; [lia|auto].
      * intros i a j Hg Hj Hf. apply elem_of_app in Hg as [Hg|Hg].
        -- apply (Hopen i a j Hg Hj).
           destruct (flag used j) eqn:Fj; [|reflexivity].
           assert (flag used' j = true) as Ht by (apply Hfl; auto).
           congruence.
        -- apply list_elem_of_singleton in Hg. injection Hg as -> ->.
           now apply Hno.
      * intros i1 a1 i2 a2 H1 H2 Hlt.
        apply elem_of_app in H1 as [H1|H1]; apply elem_of_app in H2 as [H2|H2].
        -- now apply (Hlead i1 a1 i2 a2).
        -- apply list_elem_of_singleton in H2. injection H2 as -> ->.
           apply (Hopen i1 a1 i0 H1); [lia|exact F0].
        -- apply list_elem_of_singleton in H1. injection H1 as -> ->.
           destruct (Hmem _ H2) as (i & a & [= <- <-] & Hi & _). lia.
        -- apply list_elem_of_singleton in H1. injection H1 as -> ->.
           apply list_elem_of_singleton in H2. injection H2 as -> ->. lia.
Qed.

Lemma groups_permutation :
  Permutation
    (concat (CandFilter.harmonic_groups dm_far is_harmonic harmonic_max df))
    (seq 0 (length df)).
Proof.
  unfold CandFilter.harmonic_groups.
  destruct (group_from_partition (length df) (length df) 0
              (replicate (length df) false) []) as [Hnd Hmem].
  - reflexivity.
  - apply length_replicate.
  - intros x. rewrite flag_replicate. simpl. split; [discriminate|].
    intros H. inversion H.
  - constructor.
  - intros x H. inversion H.
  - intros x H. lia.
  - apply NoDup_Permutation; [exact Hnd|apply NoDup_seq|].
    intros x. rewrite Hmem, elem_of_seq. lia.
Qed.

Lemma groups_links :
  (forall g,
     g ∈ CandFilter.harmonic_groups dm_far is_harmonic harmonic_max df ->
     exists i added,
       g = i :: added /\ forall j, j ∈ added -> i < j /\ L i j = true)
  /\ (forall i1 a1 i2 a2,
        (i1 :: a1) ∈ CandFilter.harmonic_groups dm_far is_harmonic harmonic_max df ->
        (i2 :: a2) ∈ CandFilter.harmonic_groups dm_far is_harmonic harmonic_max df ->
        i1 < i2 -> L i1 i2 = false).
Proof.
  unfold CandFilter.harmonic_groups.
  apply (group_from_links (length df) (length df) 0).
  - reflexivity.
  - apply length_replicate.
  - intros g H. inversion H.
  - intros i added j H. inversion H.
  - intros i1 a1 i2 a2 H. inversion H.
Qed.

(** What it takes for two positions to be linked. *)
Lemma linked_true (i j : nat) :
  L i j = true
  <-> exists r1 r2 n,
        df !! i = Some r1 /\ df !! j = Some r2
        /\ dm_far r1 r2 = false
        /\ 2 <= n <= harmonic_max
        /\ is_harmonic r1 r2 n = true.
Proof.
  unfold CandFilter.linked.
  destruct (df !! i) as [r1|], (df !! j) as [r2|];
    try (split; [discriminate|intros (? & ? & ? & ? & ? & _); discriminate]).
  rewrite andb_true_iff, negb_true_iff, existsb_exists. split.
  - intros [Hd (n & Hn & Hh)]. apply in_seq in Hn.
    exists r1, r2, n. repeat split; auto; lia.
  - intros (? & ? & n & [= <-] & [= <-] & Hd & Hn & Hh).
    split; [exact Hd|]. exists n. split; [apply in_seq; lia|exact Hh].
Qed.

(** X15.  The groups made by the two loops of lines 60-84 split the
    rows: put end to end, the groups hold every position of the frame
    exactly once. *)
Theorem harmonic_groups_partition :
  Permutation
    (concat (CandFilter.harmonic_groups dm_far is_harmonic harmonic_max df))
    (seq 0 (length df)).
Proof. exact groups_permutation. Qed.

(** X16.  Every group starts with the position that opened it; each
    further member lies after that position, has a dispersion measure
    within the tolerance of the opener's and a period that is the
    opener's divided by some [n] from 2 to [harmonic_max], within the
    tolerance; and the openers of two groups are never linked in that
    way, so no group could have been merged into an earlier one. *)
Theorem harmonic_groups_linked :
  (forall g,
     g ∈ CandFilter.harmonic_groups dm_far is_harmonic harmonic_max df ->
     exists i added,
       g = i :: added
       /\ forall j, j ∈ added ->
            i < j
            /\ exists r1 r2 n,
                 df !! i = Some r1 /\ df !! j = Some r2
                 /\ dm_far r1 r2 = false
                 /\ 2 <= n <= harmonic_max
                 /\ is_harmonic r1 r2 n = true)
  /\ (forall i1 a1 i2 a2 r1 r2 n,
        (i1 :: a1) ∈ CandFilter.harmonic_groups dm_far is_harmonic harmonic_max df ->
        (i2 :: a2) ∈ CandFilter.harmonic_groups dm_far is_harmonic harmonic_max df ->
        i1 < i2 ->
        df !! i1 = Some r1 -> df !! i2 = Some r2 ->
        dm_far r1 r2 = false -> 2 <= n <= harmonic_max ->
        is_harmonic r1 r2 n = false).
Proof.
  destruct groups_links as [Hshape Hlead]. split.
  - intros g Hg. destruct (Hshape g Hg) as (i & added & -> & H).
    exists i, added. split; [reflexivity|]. intros j Hj.
    destruct (H j Hj) as [Hlt Hl]. split; [exact Hlt|]. now apply linked_true.
  - intros i1 a1 i2 a2 r1 r2 n H1 H2 Hlt E1 E2 Hd Hn.
    pose proof (Hlead i1 a1 i2 a2 H1 H2 Hlt) as Hl.
    destruct (is_harmonic r1 r2 n) eqn:Hh; [|reflexivity].
    assert (L i1 i2 = true) as Ht; [|congruence].
    apply linked_true. exists r1, r2, n. auto.
Qed.

End Groups.

Lemma concat_groups_length (groups : list (list nat)) :
  Forall (fun g => g <> []) groups -> length groups <= length (concat groups).
Proof.
  induction 1 as [|g groups Hg _ IH]; simpl; [lia|].
  rewrite length_app. destruct g; [contradiction|simpl; lia].
Qed.

Lemma chosen_NoDup (groups : list (list nat)) (kept : list nat) :
  NoDup (concat groups) ->
  Forall2 (fun g b => b ∈ g) groups kept ->
  NoDup kept /\ forall b, b ∈ kept -> b ∈ concat groups.
Proof.
  intros Hnd H. induction H as [|g b groups kept Hb _ IH]; simpl in *.
  - split; [constructor|]. intros b Hb. inversion Hb.
  - apply NoDup_app in Hnd as (_ & Hdis & Hnd).
    destruct (IH Hnd) as [IHnd IHin]. split.
    + constructor; [|exact IHnd]. intros Hin. apply (Hdis b Hb), IHin, Hin.
    + intros x Hx. apply elem_of_app.
      apply elem_of_cons in Hx as [->|Hx]; [now left|right; auto].
Qed.

Section Kept.

Context {Row : Type}.
Variable dm_far : Row -> Row -> bool.
Variable is_harmonic : Row -> Row -> nat -> bool.
Variable snr_lt : Row -> Row -> bool.
Variable harmonic_max : nat.
Variable df : list Row.

Local Abbreviation groups :=
  (CandFilter.harmonic_groups dm_far is_harmonic harmonic_max df).
Local Abbreviation lt_at := (CandFilter.snr_lt_at snr_lt df).
Local Abbreviation argmax_from := (CandFilter.argmax_from snr_lt df).
Local Abbreviation idxmax := (CandFilter.idxmax snr_lt df).

Lemma argmax_from_in (best : nat) (others : list nat) :
  argmax_from best others ∈ best :: others.
Proof.
  revert best. induction others as [|j others IH]; intros best; simpl.
  - left.
  - destruct (lt_at best j).
    + right. apply IH.
    + specialize (IH best). apply elem_of_cons in IH as [->|IH].
      * left.
      * right. now right.
Qed.

Lemma harmonic_filter_eq :
  CandFilter.harmonic_filter dm_far is_harmonic snr_lt harmonic_max df
  = (kept ← CandFilter.kept_rows dm_far is_harmonic snr_lt harmonic_max df;
     mapM (fun i => df !! i) kept).
Proof.
  unfold CandFilter.harmonic_filter.
  destruct df as [|r [|r' rest]]; reflexivity.
Qed.

(** X17.  [harmonic_filter] always returns: it keeps one row for each
    group, taken from that group, no row twice, in the order of the
    groups; so the result never has more rows than the frame it was
    given, and every row of it is a row of that frame. *)
Theorem harmonic_filter_result :
  exists kept out,
    CandFilter.kept_rows dm_far is_harmonic snr_lt harmonic_max df = Some kept
    /\ CandFilter.harmonic_filter dm_far is_harmonic snr_lt harmonic_max df
       = Some out
    /\ Forall2 (fun g b => b ∈ g) groups kept
    /\ NoDup kept
    /\ Forall2 (fun b r => df !! b = Some r) kept out
    /\ length out <= length df.
Proof.
  pose proof (groups_permutation dm_far is_harmonic harmonic_max df) as Hperm.
  destruct (groups_links dm_far is_harmonic harmonic_max df) as [Hshape _].
  assert (Forall (fun g => g <> []) groups) as Hne.
  { apply Forall_forall. intros g Hg.
    destruct (Hshape g Hg) as (i & a & -> & _). discriminate. }
  assert (is_Some (mapM idxmax groups)) as [kept Hk].
  { apply mapM_is_Some_2. apply Forall_forall. intros g Hg.
    destruct (Hshape g Hg) as (i & a & -> & _). simpl. eauto. }
  assert (Forall2 (fun g b => b ∈ g) groups kept) as Hin.
  { apply mapM_Some in Hk. eapply Forall2_impl; [exact Hk|].
    intros g b Hb. destruct g as [|i a]; [discriminate|].
    injection Hb as <-. apply argmax_from_in. }
  assert (NoDup (concat groups)) as Hnd.
  { rewrite Hperm. apply NoDup_seq. }
  destruct (chosen_NoDup groups kept Hnd Hin) as [Hndk Hsub].
  assert (is_Some (mapM (fun i => df !! i) kept)) as [out Ho].
  { apply mapM_is_Some_2. apply Forall_forall. intros b Hb. simpl.
    apply lookup_lt_is_Some.
    assert (b ∈ seq 0 (length df)) as Hs by (rewrite <- Hperm; auto).
    apply elem_of_seq in Hs. lia. }
  exists kept, out. unfold CandFilter.kept_rows. rewrite harmonic_filter_eq.
  unfold CandFilter.kept_rows. rewrite Hk. simpl. rewrite Ho.
  split; [reflexivity|]. split; [reflexivity|]. split; [exact Hin|].
  split; [exact Hndk|]. apply mapM_Some in Ho. split; [exact Ho|].
  rewrite <- (Forall2_length _ _ _ Ho), <- (Forall2_length _ _ _ Hin).
  etransitivity; [apply concat_groups_length, Hne|].
  rewrite (Permutation_length Hperm), length_seq. lia.
Qed.

Lemma lt_at_rows (i j : nat) :
  i < length df -> j < length df ->
  exists ri rj, df !! i = Some ri /\ df !! j = Some rj
                /\ lt_at i j = snr_lt ri rj.
Proof.
  intros Hi Hj.
  destruct (lookup_lt_is_Some_2 df i Hi) as [ri Ei].
  destruct (lookup_lt_is_Some_2 df j Hj) as [rj Ej].
  exists ri, rj. unfold CandFilter.snr_lt_at. now rewrite Ei, Ej.
Qed.

Section Order.

Hypothesis snr_lt_irrefl : forall a, snr_lt a a = false.
Hypothesis snr_lt_trans :
  forall a b c, snr_lt a b = true -> snr_lt b c = true -> snr_lt a c = true.
Hypothesis snr_lt_negtrans :
  forall a b c, snr_lt a b = false -> snr_lt b c = false -> snr_lt a c = false.

Lemma lt_at_irrefl (i : nat) : lt_at i i = false.
Proof.
  unfold CandFilter.snr_lt_at. destruct (df !! i); [apply snr_lt_irrefl|reflexivity].
Qed.

Lemma lt_at_trans (a b c : nat) :
  a < length df -> b < length df -> c < length df ->
  lt_at a b = true -> lt_at b c = true -> lt_at a c = true.
Proof.
  intros Ha Hb Hc.
  destruct (lt_at_rows a b Ha Hb) as (ra & rb & Ea & Eb & ->).
  destruct (lt_at_rows b c Hb Hc) as (rb' & rc & Eb' & Ec & ->).
  destruct (lt_at_rows a c Ha Hc) as (ra' & rc' & Ea' & Ec' & ->).
  simplify_eq. apply snr_lt_trans.
Qed.

Lemma lt_at_negtrans (a b c : nat) :
  a < length df -> b < length df -> c < length df ->
  lt_at a b = false -> lt_at b c = false -> lt_at a c = false.
Proof.
  intros Ha Hb Hc.
  destruct (lt_at_rows a b Ha Hb) as (ra & rb & Ea & Eb & ->).
  destruct (lt_at_rows b c Hb Hc) as (rb' & rc & Eb' & Ec & ->).
  destruct (lt_at_rows a c Ha Hc) as (ra' & rc' & Ea' & Ec' & ->).
  simplify_eq. apply snr_lt_negtrans.
Qed.

Lemma argmax_from_max (best : nat) (others : list nat) :
  Forall (fun i => i < length df) (best :: others) ->
  forall j, j ∈ best :: others -> lt_at (argmax_from best others) j = false.
Proof.
  revert best. induction others as [|j others IH]; intros best Hvalid x Hx.
  - simpl. apply list_elem_of_singleton in Hx as ->. apply lt_at_irrefl.
  - apply Forall_cons in Hvalid as [Hb Hvalid].
    pose proof Hvalid as Hvalid'. apply Forall_cons in Hvalid' as [Hj Ho].
    simpl. destruct (lt_at best j) eqn:Hlt.
    + assert (argmax_from j others < length df) as Hr.
      { pose proof (argmax_from_in j others) as Hin.
        rewrite Forall_forall in Hvalid. now apply Hvalid. }
      apply elem_of_cons in Hx as [->|Hx]; [|now apply IH].
      destruct (lt_at (argmax_from j others) best) eqn:Hrb; [|reflexivity].
      pose proof (lt_at_trans _ _ _ Hr Hb Hj Hrb Hlt) as Hrj.
      rewrite (IH j Hvalid j ltac:(left)) in Hrj. discriminate.
    + assert (Forall (fun i => i < length df) (best :: others)) as Hvb
        by (constructor; assumption).
      assert (argmax_from best others < length df) as Hr.
      { pose proof (argmax_from_in best others) as Hin.
        rewrite Forall_forall in Hvb. now apply Hvb. }
      apply elem_of_cons in Hx as [->|Hx]; [now apply IH; [|left]|].
      apply elem_of_cons in Hx as [->|Hx]; [|apply IH; [assumption|now right]].
      apply (lt_at_negtrans _ best _ Hr Hb Hj); [|exact Hlt].
      apply IH; [assumption|left].
Qed.

Lemma idxmax_best (gs : list (list nat)) (kept : list nat) :
  (forall g, g ∈ gs -> Forall (fun i => i < length df) g) ->
  Forall2 (fun g b => idxmax g = Some b) gs kept ->
  Forall2
    (fun g b =>
       b ∈ g
       /\ forall j rb rj, j ∈ g -> df !! b = Some rb -> df !! j = Some rj ->
                          snr_lt rb rj = false)
    gs kept.
Proof.
  intros Hvalid Hk. induction Hk as [|g b gs bs Hb _ IH].
  - constructor.
  - constructor.
    + destruct g as [|i others]; [discriminate|]. injection Hb as <-.
      split; [apply argmax_from_in|].
      intros j rb rj Hj Eb Ej.
      pose proof (argmax_from_max i others (Hvalid _ ltac:(left)) j Hj) as Hm.
      unfold CandFilter.snr_lt_at in Hm. now rewrite Eb, Ej in Hm.
    + apply IH. intros g' Hg'. apply Hvalid. now right.
Qed.

(** X18.  When the comparison of [snr] values is a strict order in which
    being not below is transitive, as it is for numbers, the row kept
    for a group has the highest [snr] of the group: no row of the group
    has an [snr] above that of the kept row. *)
Theorem kept_row_has_highest_snr (kept : list nat) :
  CandFilter.kept_rows dm_far is_harmonic snr_lt harmonic_max df = Some kept ->
  Forall2
    (fun g b =>
       b ∈ g
       /\ forall j rb rj, j ∈ g -> df !! b = Some rb -> df !! j = Some rj ->
                          snr_lt rb rj = false)
    groups kept.
Proof.
  intros Hk. unfold CandFilter.kept_rows in Hk. apply mapM_Some in Hk.
  pose proof (groups_permutation dm_far is_harmonic harmonic_max df) as Hperm.
  apply idxmax_best; [|exact Hk].
  intros g Hg. apply Forall_forall. intros i Hi.
  assert (i ∈ seq 0 (length df)) as Hs.
  { rewrite <- Hperm. apply list_elem_of_In, in_concat.
    exists g. split; apply list_elem_of_In; assumption. }
  apply elem_of_seq in Hs. lia.
Qed.

End Order.

End Kept.

(** The example frame: the rows at 6 s, 3 s, 1.5 s and 1 s form one group,
    of which the last has the highest snr; the row at 2 s, whose
    dispersion measure is far off, stays alone. *)
Lemma harmonic_filter_example :
  CandFilter.harmonic_groups CandExample.dm_far CandExample.is_harmonic 20
    CandExample.df = [[0; 1; 3; 4]; [2]]
  /\ CandFilter.harmonic_filter CandExample.dm_far CandExample.is_harmonic
       CandExample.snr_lt 20 CandExample.df
     = Some [CandExample.mkRow 100 10 20; CandExample.mkRow 200 50 8].
Proof. split; vm_compute; reflexivity. Qed.

Lemma kept_row_has_highest_snr_witness :
  (forall a, CandExample.snr_lt a a = false)
  /\ Forall2
       (fun g b =>
          b ∈ g
          /\ forall j rb rj, j ∈ g -> CandExample.df !! b = Some rb ->
                             CandExample.df !! j = Some rj ->
                             CandExample.snr_lt rb rj = false)
       (CandFilter.harmonic_groups CandExample.dm_far CandExample.is_harmonic 20
          CandExample.df)
       [4; 2].
Proof.
  assert (forall a, CandExample.snr_lt a a = false) as Hirr
    by (intros a; apply Nat.ltb_irrefl).
  split; [exact Hirr|].
  apply (kept_row_has_highest_snr CandExample.dm_far CandExample.is_harmonic
           CandExample.snr_lt 20 CandExample.df Hirr).
  - unfold CandExample.snr_lt. intros a b c H1 H2.
    apply Nat.ltb_lt in H1, H2. apply Nat.ltb_lt. lia.
  - unfold CandExample.snr_lt. intros a b c H1 H2.
    apply Nat.ltb_ge in H1, H2. apply Nat.ltb_ge. lia.
  - vm_compute. reflexivity.
Defined.

(* ------------------------------------------------------------------ *)
(** ** The wall time of a run *)

Lemma restore_clock (cfg : CfgManager) (files : list string) (acc : list string)
    (w : World) :
  timer_reads (restore cfg files acc w).1 = timer_reads w
  /\ walltime (restore cfg files acc w).1 = walltime w.
Proof.
  revert acc w. induction files as [|file files IH]; intros acc w; [auto|].
  simpl. unfold bind. rewrite restore_one_eq.
  destruct (content (pickles w) file) as [|hdr rest]; simpl.
  - destruct (IH acc (mkWorld (<[file := [PConfig cfg]]> (pickles w)) (texts w)
                        (timer_reads w) (walltime w)
                        (trace w ++ [EvDump file (PConfig cfg)]))) as [-> ->].
    auto.
  - destruct (append_fnames rest acc); [apply IH|auto].
Qed.

Lemma loop_clock
    (Filterbank_process :
       string -> string -> string -> string -> string -> CfgManager -> result Meta)
    (cfg : CfgManager) (date rfi st metas_file filelist : string)
    (FILES : list DirEntry) (w : World) :
  timer_reads (process_files Filterbank_process cfg date rfi st metas_file
                 filelist FILES w).1 = timer_reads w
  /\ walltime (process_files Filterbank_process cfg date rfi st metas_file
                 filelist FILES w).1 = walltime w.
Proof.
  revert w. induction FILES as [|FILE rest IH]; intros w; [auto|].
  destruct (Filterbank_process (name FILE) (path FILE) date rfi st cfg)
    as [m|e] eqn:E.
  - rewrite (loop_cons_ok _ _ _ _ _ _ _ FILE rest m w E).
    destruct (IH (after_item metas_file filelist FILE m w)) as [-> ->]. auto.
  - rewrite (loop_cons_fail _ _ _ _ _ _ _ FILE rest e w E). auto.
Qed.

(** X19.  A run of [__call__] that completes has read the timer twice,
    once before reconciliation and once after the loop, and records the
    difference of the two readings as its wall time, in place of whatever
    was recorded before; a run that ends in an exception leaves the
    recorded wall time as it was. *)
Theorem walltime_recorded (scandir : string -> list DirEntry)
    (Filterbank_process :
       string -> string -> string -> string -> string -> CfgManager -> result Meta)
    (timer : nat -> Z) (cfg : CfgManager) (date : string) (w : World) :
  match (call scandir Filterbank_process timer cfg date w).2 with
  | Ok _ =>
      walltime (call scandir Filterbank_process timer cfg date w).1
      = Some (timer (S (timer_reads w)) - timer (timer_reads w))%Z
      /\ timer_reads (call scandir Filterbank_process timer cfg date w).1
         = S (S (timer_reads w))
  | Raise _ =>
      walltime (call scandir Filterbank_process timer cfg date w).1 = walltime w
  end.
Proof.
  rewrite call_eq.
  destruct (raw_or_fil scandir _) as [EXT|]; [|reflexivity].
  pose proof (restore_clock cfg) as Hr.
  rewrite load_completed_eq.
  match goal with
  | |- context [restore cfg ?files [] ?w0] =>
      specialize (Hr files [] w0); destruct (restore cfg files [] w0) as [w1 [done|e]]
  end; simpl in Hr; destruct Hr as [Ht Hw]; [|exact Hw].
  destruct (NRANKS cfg =? 0)%nat; [exact Hw|].
  match goal with
  | |- context [process_files ?P ?c ?d ?r ?s ?m ?f ?F w1] =>
      pose proof (loop_clock P c d r s m f F w1) as Hl;
      destruct (process_files P c d r s m f F w1) as [w2 [[]|e]]
  end; simpl in Hl; destruct Hl as [Ht2 Hw2].
  - simpl. rewrite Ht2, Ht. auto.
  - simpl. congruence.
Qed.
